(** * Tutorial2: system parameters from exoplanet light curves

    A shallow embedding of the Python functions of [Tutorial2.ipynb]
    ([calcRplanet], [calcOrbitalRad], [calcOrbitalSpeed], [calcOrbitalInc],
    [getAllParms]) and the properties of them that the specification states.

    Numbers.  The notebook computes with NumPy [float64] values, most of
    them wrapped in astropy quantities.  A value is modelled as a real
    number or one of the three IEEE special values; the arithmetic on finite
    values is exact real arithmetic (no rounding, no overflow, one unsigned
    zero), and NumPy's behaviour outside the domain of an operation (a
    warning and [nan] or [inf], never an exception) is written out in every
    operation.  A quantity is represented by its value in one coherent
    system of units, which is what astropy's unit bookkeeping computes. *)

From Stdlib Require Import Reals Lra.
From stdpp Require Import gmap strings.

Open Scope R_scope.

(** ** NumPy floating-point values *)

Inductive float64 : Type :=
| Num (r : R)
| PInf
| NInf
| NaN.

Definition is_finite (x : float64) : bool :=
  match x with Num _ => true | _ => false end.

(** Sign of a real: [Lt] below zero, [Eq] at zero, [Gt] above. *)
Definition Rsgn (r : R) : comparison :=
  match total_order_T r 0 with
  | inleft (left _) => Lt
  | inleft (right _) => Eq
  | inright _ => Gt
  end.

Definition finf (positive : bool) : float64 :=
  if positive then PInf else NInf.

(** An infinity of sign [positive] scaled by a number of sign [c]. *)
Definition scale_inf (c : comparison) (positive : bool) : float64 :=
  match c with
  | Gt => finf positive
  | Lt => finf (negb positive)
  | Eq => NaN
  end.

Definition fneg (x : float64) : float64 :=
  match x with
  | Num a => Num (- a)
  | PInf => NInf
  | NInf => PInf
  | NaN => NaN
  end.

Definition fadd (x y : float64) : float64 :=
  match x, y with
  | NaN, _ | _, NaN => NaN
  | Num a, Num b => Num (a + b)
  | PInf, NInf | NInf, PInf => NaN
  | PInf, _ | _, PInf => PInf
  | NInf, _ | _, NInf => NInf
  end.

Definition fsub (x y : float64) : float64 := fadd x (fneg y).

Definition fmul (x y : float64) : float64 :=
  match x, y with
  | NaN, _ | _, NaN => NaN
  | Num a, Num b => Num (a * b)
  | Num a, PInf | PInf, Num a => scale_inf (Rsgn a) true
  | Num a, NInf | NInf, Num a => scale_inf (Rsgn a) false
  | PInf, PInf | NInf, NInf => PInf
  | PInf, NInf | NInf, PInf => NInf
  end.

(** NumPy division: a zero divisor gives an infinity or [nan] (with a
    [RuntimeWarning]), it does not raise. *)
Definition fdiv (x y : float64) : float64 :=
  match x, y with
  | NaN, _ | _, NaN => NaN
  | Num a, Num b =>
      match Rsgn b with
      | Eq => scale_inf (Rsgn a) true
      | _ => Num (a / b)
      end
  | Num _, (PInf | NInf) => Num 0
  | (PInf | NInf), (PInf | NInf) => NaN
  | PInf, Num b => match Rsgn b with Lt => NInf | _ => PInf end
  | NInf, Num b => match Rsgn b with Lt => PInf | _ => NInf end
  end.

(** The comparison [x < y] of two values; false when either is [nan]. *)
Definition flt (x y : float64) : Prop :=
  match x, y with
  | Num a, Num b => a < b
  | NInf, (Num _ | PInf) | Num _, PInf => True
  | _, _ => False
  end.

(** The comparison [x <= y] of two values; false when either is [nan]. *)
Definition fle (x y : float64) : Prop :=
  match x, y with
  | Num a, Num b => a <= b
  | NInf, (Num _ | PInf | NInf) | Num _, PInf | PInf, PInf => True
  | _, _ => False
  end.

(** [np.isinf] *)
Definition is_inf (x : float64) : bool :=
  match x with PInf | NInf => true | _ => false end.

(** [x ** 2] *)
Definition fsqr (x : float64) : float64 := fmul x x.

(** [np.sqrt]: [nan] below zero. *)
Definition fsqrt (x : float64) : float64 :=
  match x with
  | Num a => match Rsgn a with Lt => NaN | _ => Num (sqrt a) end
  | PInf => PInf
  | NInf | NaN => NaN
  end.

(** [x ** (1/3)]: a power with a positive exponent that is not an integer;
    [nan] for a negative base. *)
Definition fcbrt (x : float64) : float64 :=
  match x with
  | Num a =>
      match Rsgn a with
      | Lt => NaN
      | Eq => Num 0
      | Gt => Num (Rpower a (1 / 3))
      end
  | PInf | NInf => PInf
  | NaN => NaN
  end.

Definition fsin (x : float64) : float64 :=
  match x with Num a => Num (sin a) | _ => NaN end.

Definition fcos (x : float64) : float64 :=
  match x with Num a => Num (cos a) | _ => NaN end.

(** [np.arccos]: [nan] outside [-1, 1]. *)
Definition farccos (x : float64) : float64 :=
  match x with
  | Num a =>
      match Rsgn (a + 1), Rsgn (a - 1) with
      | Lt, _ | _, Gt => NaN
      | _, _ => Num (acos a)
      end
  | _ => NaN
  end.

(** [np.pi] *)
Definition np_pi : float64 := Num PI.

(** ** The calculators *)

(** [calcRplanet(deltaF, Rstar, deltaFErr = 0)] *)
Definition calcRplanet (deltaF Rstar deltaFErr : float64) : float64 * float64 :=
  let Rplanet := fmul (fsqrt deltaF) Rstar in
  let RplanetErr := fmul (fdiv Rstar (fmul (Num 2) (fsqrt deltaF))) deltaFErr in
  (Rplanet, RplanetErr).

(** The default of the optional argument: [calcRplanet(deltaF, Rstar)]. *)
Definition calcRplanet_default (deltaF Rstar : float64) : float64 * float64 :=
  calcRplanet deltaF Rstar (Num 0).

(** [calcOrbitalSpeed(a, P)] *)
Definition calcOrbitalSpeed (a P : float64) : float64 :=
  fdiv (fmul (fmul (Num 2) np_pi) a) P.

(** The sections of [calcOrbitalInc], one definition per local variable. *)
Module Inc.

(** [np.pi*u.rad*Tdur/P] *)
Definition phase (P Tdur : float64) : float64 :=
  fdiv (fmul np_pi Tdur) P.

Definition X (Rstar Rplanet : float64) : float64 :=
  fsqr (fadd Rstar Rplanet).

Definition Xerr (Rstar Rplanet RplanetErr : float64) : float64 :=
  fmul (fmul (Num 2) (fadd Rstar Rplanet)) RplanetErr.

Definition Y (a P Tdur : float64) : float64 :=
  fsqr (fmul a (fsin (phase P Tdur))).

Definition Yerr (a P Tdur TdurErr : float64) : float64 :=
  fmul
    (fdiv
       (fmul
          (fmul (fmul (fmul (fmul (Num 2) a) (fsin (phase P Tdur))) a)
             (fcos (phase P Tdur)))
          np_pi)
       P)
    TdurErr.

Definition Z (Rstar Rplanet a P Tdur : float64) : float64 :=
  fsub (X Rstar Rplanet) (Y a P Tdur).

Definition Zerr (Rstar Rplanet a P Tdur RplanetErr TdurErr : float64)
  : float64 :=
  fsqrt (fadd (fsqr (Xerr Rstar Rplanet RplanetErr))
              (fsqr (Yerr a P Tdur TdurErr))).

Definition Q (Rstar Rplanet a P Tdur : float64) : float64 :=
  fdiv (fsqrt (Z Rstar Rplanet a P Tdur)) a.

Definition Qerr (Rstar Rplanet a P Tdur RplanetErr TdurErr : float64)
  : float64 :=
  fdiv (Zerr Rstar Rplanet a P Tdur RplanetErr TdurErr)
       (fmul (fmul (Num 2) a) (fsqrt (Z Rstar Rplanet a P Tdur))).

End Inc.

(** [calcOrbitalInc(Rstar, Rplanet, a, P, Tdur, RplanetErr=0*u.km,
    TdurErr=0*u.day)] *)
Definition calcOrbitalInc
  (Rstar Rplanet a P Tdur RplanetErr TdurErr : float64) : float64 * float64 :=
  let Q := Inc.Q Rstar Rplanet a P Tdur in
  let Qerr := Inc.Qerr Rstar Rplanet a P Tdur RplanetErr TdurErr in
  let i := fsub (fdiv np_pi (Num 2)) (farccos Q) in
  let iErr := fdiv Qerr (fsqrt (fsub (Num 1) (fsqr Q))) in
  (i, iErr).


(** ** The parameter dictionary

    [getAllParms] reads and writes the dictionary it is given.  A
    computation takes the dictionary and gives back its outcome (a value or
    the exception raised) together with the dictionary as it is then.  The
    entries are numbers: quantities of the dimension that the docstring asks
    for, in coherent units.  What astropy raises for an entry of another
    dimension is outside the model, so the only exception is [KeyError]. *)

Inductive exn : Type :=
| KeyError (key : string).

Inductive outcome (A : Type) : Type :=
| Return (a : A)
| Raise (e : exn).
Arguments Return {A} a.
Arguments Raise {A} e.

Definition py (A : Type) : Type :=
  gmap string float64 → outcome A * gmap string float64.

Definition ret {A} (a : A) : py A := fun d => (Return a, d).

Definition bind {A B} (m : py A) (k : A → py B) : py B :=
  fun d =>
    match m d with
    | (Return a, d') => k a d'
    | (Raise e, d') => (Raise e, d')
    end.

Notation "'let*' x ':=' m 'in' k" := (bind m (fun x => k))
  (at level 10, x name, m at level 100, k at level 200).
Notation "'run' m 'then' k" := (bind m (fun _ => k))
  (at level 10, m at level 100, k at level 200).

(** [parmDict[key]] *)
Definition getitem (key : string) : py float64 :=
  fun d =>
    match d !! key with
    | Some v => (Return v, d)
    | None => (Raise (KeyError key), d)
    end.

(** [parmDict[key] = v] *)
Definition setitem (key : string) (v : float64) : py unit :=
  fun d => (Return tt, <[key := v]> d).

Section WithConstants.

(** [astropy.constants.G], the gravitational constant. *)
Variable G : R.

(** [calcOrbitalRad(Mstar, P)] *)
Definition calcOrbitalRad (Mstar P : float64) : float64 :=
  fcbrt (fdiv (fmul (fmul (Num G) Mstar) (fsqr P))
              (fmul (Num 4) (fsqr np_pi))).

(** The statements of [getAllParms], in order. *)
Definition stmt_Rplanet : py unit :=
  let* deltaF := getitem "deltaF" in
  let* Rstar := getitem "Rstar" in
  let* deltaFErr := getitem "deltaFErr" in
  let '(Rplanet, RplanetErr) := calcRplanet deltaF Rstar deltaFErr in
  run setitem "Rplanet" Rplanet then
  setitem "RplanetErr" RplanetErr.

Definition stmt_Rp2Rs : py unit :=
  let* Rplanet := getitem "Rplanet" in
  let* Rstar := getitem "Rstar" in
  setitem "Rp2Rs" (fdiv Rplanet Rstar).

Definition stmt_Rp2RsErr : py unit :=
  let* RplanetErr := getitem "RplanetErr" in
  let* Rstar := getitem "Rstar" in
  setitem "Rp2RsErr" (fdiv RplanetErr Rstar).

Definition stmt_a : py unit :=
  let* Mstar := getitem "Mstar" in
  let* P := getitem "P" in
  setitem "a" (calcOrbitalRad Mstar P).

Definition stmt_v : py unit :=
  let* a := getitem "a" in
  let* P := getitem "P" in
  setitem "v" (calcOrbitalSpeed a P).

Definition stmt_i : py unit :=
  let* Rstar := getitem "Rstar" in
  let* Rplanet := getitem "Rplanet" in
  let* a := getitem "a" in
  let* P := getitem "P" in
  let* Tdur := getitem "Tdur" in
  let* RplanetErr := getitem "RplanetErr" in
  let* TdurErr := getitem "TdurErr" in
  let '(i, iErr) :=
    calcOrbitalInc Rstar Rplanet a P Tdur RplanetErr TdurErr in
  run setitem "i" i then
  setitem "iErr" iErr.

(** The report: each [print] reads the entries it formats; the text it
    writes is not part of the model. *)
Definition report : py unit :=
  let* _ := getitem "Rp2Rs" in let* _ := getitem "Rp2RsErr" in
  let* _ := getitem "Rplanet" in let* _ := getitem "RplanetErr" in
  let* _ := getitem "a" in
  let* _ := getitem "v" in
  let* _ := getitem "i" in let* _ := getitem "iErr" in
  ret tt.

(** The statements before the inclination is computed. *)
Definition radius_and_orbit : py unit :=
  run stmt_Rplanet then
  run stmt_Rp2Rs then
  run stmt_Rp2RsErr then
  run stmt_a then
  stmt_v.

(** [getAllParms(parmDict, silent=False)] *)
Definition getAllParms (silent : bool) : py unit :=
  run radius_and_orbit then
  run stmt_i then
  if negb silent then report else ret tt.

End WithConstants.

(** The dictionary after the statements that come before the inclination,
    when the five entries they read are there. *)
Definition populated_early (G : R) (d : gmap string float64)
  (deltaF Rstar deltaFErr Mstar P : float64) : gmap string float64 :=
  let Rplanet := fst (calcRplanet deltaF Rstar deltaFErr) in
  let RplanetErr := snd (calcRplanet deltaF Rstar deltaFErr) in
  let a := calcOrbitalRad G Mstar P in
  <["v" := calcOrbitalSpeed a P]>
    (<["a" := a]>
       (<["Rp2RsErr" := fdiv RplanetErr Rstar]>
          (<["Rp2Rs" := fdiv Rplanet Rstar]>
             (<["RplanetErr" := RplanetErr]>
                (<["Rplanet" := Rplanet]> d))))).

(** The dictionary [getAllParms] leaves when all seven entries it reads are
    there: the entries it is given, with the eight computed ones set. *)
Definition populated (G : R) (d : gmap string float64)
  (deltaF Rstar deltaFErr Mstar P Tdur TdurErr : float64)
  : gmap string float64 :=
  let Rplanet := fst (calcRplanet deltaF Rstar deltaFErr) in
  let RplanetErr := snd (calcRplanet deltaF Rstar deltaFErr) in
  let a := calcOrbitalRad G Mstar P in
  let inc := calcOrbitalInc Rstar Rplanet a P Tdur RplanetErr TdurErr in
  <["iErr" := snd inc]>
    (<["i" := fst inc]>
       (populated_early G d deltaF Rstar deltaFErr Mstar P)).

(** The entries [getAllParms] reads from its caller, the ones it has set
    before the inclination is computed, and all the ones it sets. *)
Definition input_keys : list string :=
  ["P"; "Mstar"; "Rstar"; "deltaF"; "deltaFErr"; "Tdur"; "TdurErr"]%string.

Definition early_keys : list string :=
  ["Rplanet"; "RplanetErr"; "Rp2Rs"; "Rp2RsErr"; "a"; "v"]%string.

Definition output_keys : list string :=
  early_keys ++ ["i"; "iErr"]%string.

(** A computation that leaves every entry outside [keys] as it was, whether
    it returns or raises. *)
Definition modifies_only {A} (keys : list string) (m : py A) : Prop :=
  ∀ (d : gmap string float64) (k : string),
    k ∉ keys → snd (m d) !! k = d !! k.

(** Object 230 of the notebook, with the five entries the docstring of
    [getAllParms] asks for and neither uncertainty. *)
Definition object230_knowns : gmap string float64 :=
  <["Tdur" := Num (1725 / 1000)]>
    (<["deltaF" := Num (31 / 1000)]>
       (<["Rstar" := Num (1591 / 1000)]>
          (<["Mstar" := Num (145 / 100)]>
             (<["P" := Num (324357 / 100)]> ∅)))).

(** Object 230 as the notebook passes it to [getAllParms]. *)
Definition object230 : gmap string float64 :=
  <["TdurErr" := Num (1 / 10)]>
    (<["deltaFErr" := Num (2 / 1000)]> object230_knowns).

(** The formulas of the inclination as the specification writes them, over
    the reals, to be compared with the sections of [calcOrbitalInc]. *)
Module Formula.

Definition X (Rstar Rplanet : R) : R := (Rstar + Rplanet)².

Definition Xerr (Rstar Rplanet RplanetErr : R) : R :=
  2 * (Rstar + Rplanet) * RplanetErr.

Definition Y (a P Tdur : R) : R := (a * sin (PI * Tdur / P))².

Definition Yerr (a P Tdur TdurErr : R) : R :=
  2 * a * sin (PI * Tdur / P) * a * cos (PI * Tdur / P) * (PI / P) * TdurErr.

Definition Z (Rstar Rplanet a P Tdur : R) : R :=
  X Rstar Rplanet - Y a P Tdur.

Definition Zerr (Rstar Rplanet a P Tdur RplanetErr TdurErr : R) : R :=
  sqrt ((Xerr Rstar Rplanet RplanetErr)² + (Yerr a P Tdur TdurErr)²).

Definition Q (Rstar Rplanet a P Tdur : R) : R :=
  sqrt (Z Rstar Rplanet a P Tdur) / a.

Definition Qerr (Rstar Rplanet a P Tdur RplanetErr TdurErr : R) : R :=
  Zerr Rstar Rplanet a P Tdur RplanetErr TdurErr
  / (2 * a * sqrt (Z Rstar Rplanet a P Tdur)).

End Formula.

(** The input entries in the order in which [getAllParms] first reads them,
    and the first of them that a dictionary lacks. *)
Definition read_order : list string :=
  ["deltaF"; "Rstar"; "deltaFErr"; "Mstar"; "P"; "Tdur"; "TdurErr"]%string.

Definition first_missing (d : gmap string float64) : option string :=
  find (fun key => match d !! key with None => true | Some _ => false end)
    read_order.

(** ** Signs and special values *)

Lemma Rsgn_spec (r : R) :
  match Rsgn r with Lt => r < 0 | Eq => r = 0 | Gt => 0 < r end.
Proof.
  unfold Rsgn. destruct (total_order_T r 0) as [[Hlt | Heq] | Hgt]; assumption.
Qed.

Lemma Rsgn_neg (r : R) : r < 0 → Rsgn r = Lt.
Proof.
  intros H. pose proof (Rsgn_spec r) as S.
  destruct (Rsgn r); [lra | reflexivity | lra].
Qed.

Lemma Rsgn_zero : Rsgn 0 = Eq.
Proof. pose proof (Rsgn_spec 0) as S. destruct (Rsgn 0); [reflexivity | lra | lra]. Qed.

Lemma Rsgn_pos (r : R) : 0 < r → Rsgn r = Gt.
Proof.
  intros H. pose proof (Rsgn_spec r) as S.
  destruct (Rsgn r); [lra | lra | reflexivity].
Qed.

(** Case analysis on the sign of [r], keeping the fact about [r]. *)
Ltac sgn_cases r :=
  let S := fresh "S" in
  pose proof (Rsgn_spec r) as S; destruct (Rsgn r).

Lemma fsqrt_neg (r : R) : r < 0 → fsqrt (Num r) = NaN.
Proof. intros H. simpl. now rewrite Rsgn_neg. Qed.

Lemma fsqrt_nonneg (r : R) : 0 <= r → fsqrt (Num r) = Num (sqrt r).
Proof. intros H. simpl. sgn_cases r; [reflexivity | lra | reflexivity]. Qed.

Lemma fdiv_num (x y : R) : y ≠ 0 → fdiv (Num x) (Num y) = Num (x / y).
Proof. intros H. simpl. sgn_cases y; [contradiction | reflexivity | reflexivity]. Qed.

Lemma fdiv_zero_not_finite (x : float64) : is_finite (fdiv x (Num 0)) = false.
Proof.
  destruct x as [r | | |]; simpl; rewrite ?Rsgn_zero; try reflexivity.
  sgn_cases r; reflexivity.
Qed.

Lemma fmul_not_finite_l (x y : float64) :
  is_finite x = false → is_finite (fmul x y) = false.
Proof.
  destruct x as [r | | |]; [discriminate | | |]; intros _;
    destruct y as [s | | |]; simpl; try reflexivity;
    sgn_cases s; reflexivity.
Qed.

Lemma fdiv_not_finite_l (x : float64) (y : R) :
  is_finite x = false → is_finite (fdiv x (Num y)) = false.
Proof.
  destruct x as [r | | |]; [discriminate | | |]; intros _; simpl;
    try reflexivity; sgn_cases y; reflexivity.
Qed.

Lemma fmul_nan_l (x : float64) : fmul NaN x = NaN.
Proof. reflexivity. Qed.

Lemma fmul_nan_r (x : float64) : fmul x NaN = NaN.
Proof. now destruct x. Qed.

Lemma fdiv_nan_l (x : float64) : fdiv NaN x = NaN.
Proof. reflexivity. Qed.

Lemma fdiv_nan_r (x : float64) : fdiv x NaN = NaN.
Proof. now destruct x. Qed.

Create Rewrite HintDb nan.
#[local] Hint Rewrite fmul_nan_l fmul_nan_r fdiv_nan_l fdiv_nan_r : nan.

(** ** calcRplanet *)

Lemma calcRplanet_num (dF Rs e : R) :
  0 < dF →
  calcRplanet (Num dF) (Num Rs) (Num e)
  = (Num (sqrt dF * Rs), Num (Rs / (2 * sqrt dF) * e)).
Proof.
  intros H. unfold calcRplanet.
  assert (0 < sqrt dF) by now apply sqrt_lt_R0.
  rewrite fsqrt_nonneg by lra. cbn [fmul].
  rewrite fdiv_num by lra. reflexivity.
Qed.

Lemma calcRplanet_Rplanet (dF Rs : R) (e : float64) :
  0 <= dF → fst (calcRplanet (Num dF) (Num Rs) e) = Num (sqrt dF * Rs).
Proof. intros H. unfold calcRplanet. cbn [fst]. now rewrite fsqrt_nonneg. Qed.

Lemma calcRplanet_err_scales (dF Rs k e : R) :
  0 < dF →
  snd (calcRplanet (Num dF) (Num Rs) (Num (k * e)))
  = fmul (Num k) (snd (calcRplanet (Num dF) (Num Rs) (Num e))).
Proof.
  intros H. rewrite !calcRplanet_num by assumption. cbn [snd fmul].
  f_equal. ring.
Qed.

(** C2, as the specification states it, fails: [calcRplanet] has no check of
    its arguments and NumPy's square root and division do not raise.  At
    [deltaF = -0.01] both results are [nan]; at [deltaF = 0] the radius is
    [0] and the uncertainty is [nan] (for [deltaFErr = 0]) or infinite. *)
Lemma calcRplanet_domain_error_counterexample :
  calcRplanet (Num (-1 / 100)) (Num 1) (Num 0) = (NaN, NaN)
  ∧ calcRplanet (Num 0) (Num 1) (Num 0) = (Num 0, NaN)
  ∧ calcRplanet (Num 0) (Num 1) (Num (1 / 500)) = (Num 0, PInf).
Proof.
  unfold calcRplanet. rewrite fsqrt_neg by lra.
  rewrite (fsqrt_nonneg 0) by lra. rewrite sqrt_0.
  cbn [fmul fdiv]. rewrite !Rmult_0_l, !Rmult_0_r, Rsgn_zero.
  rewrite (Rsgn_pos 1) by lra. cbn [scale_inf finf fmul].
  rewrite Rsgn_zero, (Rsgn_pos (1 / 500)) by lra.
  repeat split.
Qed.

(** C2, amended: [calcRplanet] signals nothing for [deltaF <= 0].  For a
    negative [deltaF] it returns [nan] for the radius and for its
    uncertainty; for [deltaF = 0] it returns the radius [0] and an
    uncertainty that is infinite or [nan]. *)
Theorem calcRplanet_nonpositive_depth (dF Rs : R) (e : float64) :
  dF <= 0 →
  let r := calcRplanet (Num dF) (Num Rs) e in
  is_finite (snd r) = false
  ∧ (dF < 0 → r = (NaN, NaN))
  ∧ (dF = 0 → fst r = Num 0).
Proof.
  intros Hle r. subst r. unfold calcRplanet. cbn [fst snd].
  destruct (Rle_lt_or_eq_dec dF 0 Hle) as [Hneg | Hzero].
  - rewrite fsqrt_neg by assumption. autorewrite with nan.
    repeat split; intros; lra.
  - subst dF. rewrite fsqrt_nonneg by lra. rewrite sqrt_0. cbn [fmul].
    rewrite Rmult_0_l, Rmult_0_r. repeat split.
    + apply fmul_not_finite_l, fdiv_zero_not_finite.
    + intros; lra.
Qed.

Lemma calcRplanet_nonpositive_depth_witness :
  -1 / 100 <= 0
  ∧ (let r := calcRplanet (Num (-1 / 100)) (Num 1) (Num 0) in
     is_finite (snd r) = false
     ∧ (-1 / 100 < 0 → r = (NaN, NaN))
     ∧ (-1 / 100 = 0 → fst r = Num 0)).
Proof.
  split; [lra | apply (calcRplanet_nonpositive_depth (-1 / 100) 1 (Num 0)); lra].
Defined.

(** C8: for [deltaF] in (0, 1] the uncertainty [calcRplanet] returns is
    linear in [deltaFErr]: doubling [deltaFErr] doubles it, and
    [deltaFErr = 0] gives [0]. *)
Theorem calcRplanet_err_linear (dF Rs e : R) :
  0 < dF <= 1 →
  snd (calcRplanet (Num dF) (Num Rs) (Num (2 * e)))
  = fmul (Num 2) (snd (calcRplanet (Num dF) (Num Rs) (Num e)))
  ∧ snd (calcRplanet (Num dF) (Num Rs) (Num 0)) = Num 0
  ∧ snd (calcRplanet_default (Num dF) (Num Rs)) = Num 0.
Proof.
  intros [Hpos _]. split; [now apply calcRplanet_err_scales |].
  unfold calcRplanet_default. rewrite calcRplanet_num by assumption.
  cbn [snd]. split; f_equal; ring.
Qed.

Lemma calcRplanet_err_linear_witness :
  0 < 31 / 1000 <= 1
  ∧ snd (calcRplanet (Num (31 / 1000)) (Num 1) (Num (2 * (2 / 1000))))
    = fmul (Num 2) (snd (calcRplanet (Num (31 / 1000)) (Num 1) (Num (2 / 1000))))
  ∧ snd (calcRplanet (Num (31 / 1000)) (Num 1) (Num 0)) = Num 0
  ∧ snd (calcRplanet_default (Num (31 / 1000)) (Num 1)) = Num 0.
Proof.
  split; [lra | apply (calcRplanet_err_linear (31 / 1000) 1 (2 / 1000)); lra].
Defined.

(** ** calcOrbitalRad *)

Lemma four_pi_sqr_pos : 0 < 4 * (PI * PI).
Proof. pose proof PI_RGT_0. nra. Qed.

Lemma calcOrbitalRad_num (G M P : R) :
  calcOrbitalRad G (Num M) (Num P)
  = fcbrt (Num (G * M * (P * P) / (4 * (PI * PI)))).
Proof.
  unfold calcOrbitalRad, fsqr, np_pi. cbn [fmul].
  rewrite fdiv_num; [reflexivity |]. pose proof four_pi_sqr_pos. lra.
Qed.

Lemma Rdiv_increasing (x y c : R) :
  0 < c → 0 <= x < y → 0 <= x / c < y / c.
Proof.
  intros Hc [Hx Hxy]. pose proof (Rinv_0_lt_compat c Hc) as Hi. unfold Rdiv.
  split; [apply Rmult_le_pos; lra | apply Rmult_lt_compat_r; lra].
Qed.

Lemma fcbrt_increasing (x y : R) :
  0 <= x < y → flt (fcbrt (Num x)) (fcbrt (Num y)).
Proof.
  intros [Hx Hxy]. cbn [fcbrt].
  rewrite (Rsgn_pos y) by lra.
  sgn_cases x; cbn [flt].
  - unfold Rpower. apply exp_pos.
  - lra.
  - apply Rlt_Rpower_l; lra.
Qed.

Lemma flt_fle (x y : float64) : flt x y → fle x y.
Proof.
  destruct x, y; cbn [flt fle]; try tauto. apply Rlt_le.
Qed.

Lemma flt_asym (x y : float64) : flt x y → ¬ flt y x.
Proof.
  destruct x, y; cbn [flt]; try tauto. apply Rlt_asym.
Qed.

Lemma fcbrt_nondecreasing (x y : R) :
  0 <= x <= y → fle (fcbrt (Num x)) (fcbrt (Num y)).
Proof.
  intros [Hx Hxy]. destruct (Rle_lt_or_eq_dec x y Hxy) as [Hlt | ->].
  - apply flt_fle, fcbrt_increasing. lra.
  - cbn [fcbrt]. sgn_cases y; cbn [fle]; lra.
Qed.

Lemma Rdiv_nondecreasing (x y c : R) :
  0 < c → 0 <= x <= y → 0 <= x / c <= y / c.
Proof.
  intros Hc [Hx Hxy]. pose proof (Rinv_0_lt_compat c Hc) as Hi. unfold Rdiv.
  split; [apply Rmult_le_pos; lra | apply Rmult_le_compat_r; lra].
Qed.

(** C9, as the specification states it, fails: without a bound on the
    argument that varies, [calcOrbitalRad] is not increasing.  For the two
    negative masses [-2 < -1] (with [G = 1], [P = 1]) it returns [nan] twice,
    and [nan] is below nothing; for the two negative periods [-2 < -1] (with
    [G = 1], [Mstar = 1]) the radius at [-1] is the smaller one. *)
Lemma calcOrbitalRad_increasing_counterexample :
  calcOrbitalRad 1 (Num (-2)) (Num 1) = NaN
  ∧ calcOrbitalRad 1 (Num (-1)) (Num 1) = NaN
  ∧ ¬ flt (calcOrbitalRad 1 (Num (-2)) (Num 1))
          (calcOrbitalRad 1 (Num (-1)) (Num 1))
  ∧ flt (calcOrbitalRad 1 (Num 1) (Num (-1)))
        (calcOrbitalRad 1 (Num 1) (Num (-2)))
  ∧ ¬ flt (calcOrbitalRad 1 (Num 1) (Num (-2)))
          (calcOrbitalRad 1 (Num 1) (Num (-1))).
Proof.
  pose proof four_pi_sqr_pos as Hpi.
  pose proof (Rinv_0_lt_compat _ Hpi) as Hinv.
  assert (Hnan : ∀ M : R, M < 0 → calcOrbitalRad 1 (Num M) (Num 1) = NaN).
  { intros M HM. rewrite calcOrbitalRad_num. cbn [fcbrt].
    rewrite Rsgn_neg; [reflexivity |].
    unfold Rdiv. replace (1 * M * (1 * 1)) with M by ring. nra. }
  assert (Hlt : flt (calcOrbitalRad 1 (Num 1) (Num (-1)))
                    (calcOrbitalRad 1 (Num 1) (Num (-2)))).
  { rewrite !calcOrbitalRad_num.
    apply fcbrt_increasing, Rdiv_increasing; [assumption | lra]. }
  rewrite !Hnan by lra.
  split; [reflexivity | split; [reflexivity | split; [| split]]].
  - cbn [flt]. tauto.
  - exact Hlt.
  - now apply flt_asym.
Qed.

(** C9, amended: with a positive gravitational constant, over masses and
    periods that are not negative, [calcOrbitalRad] does not decrease when
    the stellar mass grows (for a fixed period [P > 0]) nor when the period
    grows (for a fixed mass [Mstar > 0]), and it is [0] at [P = 0]. *)
Theorem calcOrbitalRad_nondecreasing (G : R) :
  0 < G →
  (∀ M1 M2 P : R, 0 < P → 0 <= M1 <= M2 →
     fle (calcOrbitalRad G (Num M1) (Num P)) (calcOrbitalRad G (Num M2) (Num P)))
  ∧ (∀ M P1 P2 : R, 0 < M → 0 <= P1 <= P2 →
       fle (calcOrbitalRad G (Num M) (Num P1)) (calcOrbitalRad G (Num M) (Num P2)))
  ∧ (∀ M : R, calcOrbitalRad G (Num M) (Num 0) = Num 0).
Proof.
  intros HG. pose proof four_pi_sqr_pos as Hpi.
  repeat split.
  - intros M1 M2 P HP [HM1 HM]. rewrite !calcOrbitalRad_num.
    apply fcbrt_nondecreasing, Rdiv_nondecreasing; [assumption |].
    assert (0 < G * (P * P)) by (repeat apply Rmult_lt_0_compat; lra).
    replace (G * M1 * (P * P)) with (G * (P * P) * M1) by ring.
    replace (G * M2 * (P * P)) with (G * (P * P) * M2) by ring.
    split; [apply Rmult_le_pos; lra | apply Rmult_le_compat_l; lra].
  - intros M P1 P2 HM [HP1 HP]. rewrite !calcOrbitalRad_num.
    apply fcbrt_nondecreasing, Rdiv_nondecreasing; [assumption |].
    assert (0 < G * M) by (apply Rmult_lt_0_compat; lra).
    assert (0 <= P1 * P1 <= P2 * P2) by nra.
    split; [apply Rmult_le_pos; lra | apply Rmult_le_compat_l; lra].
  - intros M. rewrite calcOrbitalRad_num.
    replace (G * M * (0 * 0) / (4 * (PI * PI))) with 0 by (unfold Rdiv; ring).
    cbn [fcbrt]. now rewrite Rsgn_zero.
Qed.

Lemma calcOrbitalRad_nondecreasing_witness :
  0 < 1
  ∧ (∀ M1 M2 P : R, 0 < P → 0 <= M1 <= M2 →
       fle (calcOrbitalRad 1 (Num M1) (Num P)) (calcOrbitalRad 1 (Num M2) (Num P)))
  ∧ (∀ M P1 P2 : R, 0 < M → 0 <= P1 <= P2 →
       fle (calcOrbitalRad 1 (Num M) (Num P1)) (calcOrbitalRad 1 (Num M) (Num P2)))
  ∧ (∀ M : R, calcOrbitalRad 1 (Num M) (Num 0) = Num 0).
Proof.
  split; [lra | apply (calcOrbitalRad_nondecreasing 1); lra].
Defined.

(** ** calcOrbitalInc *)

Lemma farccos_num (q : R) : -1 <= q <= 1 → farccos (Num q) = Num (acos q).
Proof.
  intros [Hlo Hhi]. cbn [farccos].
  sgn_cases (q + 1); sgn_cases (q - 1); try reflexivity; lra.
Qed.

Lemma farccos_outside (q : R) : 1 < Rabs q → farccos (Num q) = NaN.
Proof.
  intros H. cbn [farccos].
  sgn_cases (q + 1); sgn_cases (q - 1); try reflexivity;
    exfalso; revert H; unfold Rabs; destruct (Rcase_abs q); lra.
Qed.

Lemma farccos_not_finite (x : float64) :
  is_finite x = false → farccos x = NaN.
Proof. destruct x; [discriminate | reflexivity ..]. Qed.

Lemma half_pi : fdiv np_pi (Num 2) = Num (PI / 2).
Proof. unfold np_pi. apply fdiv_num. lra. Qed.

(** [sqrt(1 - Q**2)] is [nan] when [Q] is not a finite number. *)
Lemma fsqrt_one_minus_sqr_not_finite (x : float64) :
  is_finite x = false → fsqrt (fsub (Num 1) (fsqr x)) = NaN.
Proof. destruct x; [discriminate | reflexivity ..]. Qed.

Section FiniteInputs.

Variables Rstar Rplanet a P Tdur RplanetErr TdurErr : R.
Hypothesis P_nonzero : P ≠ 0.

Lemma phase_num : Inc.phase (Num P) (Num Tdur) = Num (PI * Tdur / P).
Proof. unfold Inc.phase, np_pi. cbn [fmul]. now apply fdiv_num. Qed.

Lemma X_num : Inc.X (Num Rstar) (Num Rplanet) = Num (Formula.X Rstar Rplanet).
Proof. reflexivity. Qed.

Lemma Xerr_num :
  Inc.Xerr (Num Rstar) (Num Rplanet) (Num RplanetErr)
  = Num (Formula.Xerr Rstar Rplanet RplanetErr).
Proof. reflexivity. Qed.

Lemma Y_num : Inc.Y (Num a) (Num P) (Num Tdur) = Num (Formula.Y a P Tdur).
Proof. unfold Inc.Y. rewrite phase_num. reflexivity. Qed.

Lemma Yerr_num :
  Inc.Yerr (Num a) (Num P) (Num Tdur) (Num TdurErr)
  = Num (Formula.Yerr a P Tdur TdurErr).
Proof.
  unfold Inc.Yerr, np_pi. rewrite phase_num. cbn [fsin fcos fmul].
  rewrite fdiv_num by assumption. cbn [fmul]. f_equal.
  unfold Formula.Yerr. field. assumption.
Qed.

Lemma Z_num :
  Inc.Z (Num Rstar) (Num Rplanet) (Num a) (Num P) (Num Tdur)
  = Num (Formula.Z Rstar Rplanet a P Tdur).
Proof. unfold Inc.Z. rewrite X_num, Y_num. reflexivity. Qed.

Lemma Zerr_num :
  Inc.Zerr (Num Rstar) (Num Rplanet) (Num a) (Num P) (Num Tdur)
    (Num RplanetErr) (Num TdurErr)
  = Num (Formula.Zerr Rstar Rplanet a P Tdur RplanetErr TdurErr).
Proof.
  unfold Inc.Zerr. rewrite Xerr_num, Yerr_num. cbn [fsqr fmul fadd].
  rewrite fsqrt_nonneg; [reflexivity |].
  apply Rplus_le_le_0_compat; apply Rle_0_sqr.
Qed.

Lemma Q_num :
  a ≠ 0 → 0 <= Formula.Z Rstar Rplanet a P Tdur →
  Inc.Q (Num Rstar) (Num Rplanet) (Num a) (Num P) (Num Tdur)
  = Num (Formula.Q Rstar Rplanet a P Tdur).
Proof.
  intros Ha Hz. unfold Inc.Q. rewrite Z_num, fsqrt_nonneg by assumption.
  now apply fdiv_num.
Qed.

Lemma Qerr_num :
  a ≠ 0 → 0 < Formula.Z Rstar Rplanet a P Tdur →
  Inc.Qerr (Num Rstar) (Num Rplanet) (Num a) (Num P) (Num Tdur)
    (Num RplanetErr) (Num TdurErr)
  = Num (Formula.Qerr Rstar Rplanet a P Tdur RplanetErr TdurErr).
Proof.
  intros Ha Hz. unfold Inc.Qerr. rewrite Zerr_num, Z_num.
  rewrite fsqrt_nonneg by lra. cbn [fmul].
  apply fdiv_num. pose proof (sqrt_lt_R0 _ Hz).
  repeat apply Rmult_integral_contrapositive_currified; lra.
Qed.

(** For [a > 0], [0 <= Z <= a²] says that [Q] lies in [0, 1]. *)
Lemma Q_range :
  0 < a →
  0 <= Formula.Z Rstar Rplanet a P Tdur <= a² →
  0 <= Formula.Q Rstar Rplanet a P Tdur <= 1.
Proof.
  intros Ha [Hz0 Hz1]. unfold Formula.Q.
  set (z := Formula.Z Rstar Rplanet a P Tdur) in *.
  pose proof (sqrt_pos z) as Hs.
  assert (Hsa : sqrt z <= a).
  { rewrite <- (sqrt_Rsqr a) by lra. now apply sqrt_le_1_alt. }
  pose proof (Rinv_0_lt_compat a Ha) as Hi. unfold Rdiv. split.
  - apply Rmult_le_pos; lra.
  - replace 1 with (a * / a) by (field; lra).
    apply Rmult_le_compat_r; lra.
Qed.

Lemma Q_range_strict :
  0 < a →
  0 < Formula.Z Rstar Rplanet a P Tdur < a² →
  0 < Formula.Q Rstar Rplanet a P Tdur < 1.
Proof.
  intros Ha [Hz0 Hz1]. unfold Formula.Q.
  set (z := Formula.Z Rstar Rplanet a P Tdur) in *.
  pose proof (sqrt_lt_R0 z Hz0) as Hs.
  assert (Hsa : sqrt z < a).
  { rewrite <- (sqrt_Rsqr a) by lra. apply sqrt_lt_1_alt. lra. }
  pose proof (Rinv_0_lt_compat a Ha) as Hi. unfold Rdiv. split.
  - apply Rmult_lt_0_compat; lra.
  - replace 1 with (a * / a) by (field; lra).
    apply Rmult_lt_compat_r; lra.
Qed.

End FiniteInputs.

Lemma acos_quarter_turn (q : R) : 0 <= q <= 1 → 0 <= acos q <= PI / 2.
Proof.
  intros [Hq0 Hq1]. pose proof (acos_bound q) as [Hlo Hhi].
  split; [assumption |].
  destruct (Rle_lt_dec (acos q) (PI / 2)) as [Hle | Hgt]; [assumption |].
  pose proof PI_RGT_0.
  assert (cos (acos q) < 0) by (apply cos_lt_0; lra).
  rewrite cos_acos in * by lra. lra.
Qed.

(** The angle returned once [Q] is a number in [-1, 1]. *)
Lemma calcOrbitalInc_angle (Rs Rp a P T RpE TE : float64) (q : R) :
  Inc.Q Rs Rp a P T = Num q → -1 <= q <= 1 →
  fst (calcOrbitalInc Rs Rp a P T RpE TE) = Num (PI / 2 - acos q).
Proof.
  intros HQ Hq. unfold calcOrbitalInc. cbn [fst].
  rewrite HQ, half_pi, farccos_num by assumption. reflexivity.
Qed.

(** The uncertainty returned once [Q] is strictly inside (-1, 1). *)
Lemma calcOrbitalInc_err (Rs Rp a P T RpE TE : float64) (q qerr : R) :
  Inc.Q Rs Rp a P T = Num q → -1 < q < 1 →
  Inc.Qerr Rs Rp a P T RpE TE = Num qerr →
  snd (calcOrbitalInc Rs Rp a P T RpE TE) = Num (qerr / sqrt (1 - q²)).
Proof.
  intros HQ Hq HQerr. unfold calcOrbitalInc. cbn [snd].
  rewrite HQ, HQerr. cbn [fsqr fmul fneg fsub fadd].
  assert (Hpos : 0 < 1 + - (q * q)) by nra.
  rewrite fsqrt_nonneg by lra.
  rewrite fdiv_num; [reflexivity |].
  pose proof (sqrt_lt_R0 _ Hpos). lra.
Qed.

(** Both results are [nan] when [Q] is not a finite number. *)
Lemma calcOrbitalInc_Q_not_finite (Rs Rp a P T RpE TE : float64) :
  is_finite (Inc.Q Rs Rp a P T) = false →
  calcOrbitalInc Rs Rp a P T RpE TE = (NaN, NaN).
Proof.
  intros H. unfold calcOrbitalInc.
  rewrite farccos_not_finite, fsqrt_one_minus_sqr_not_finite by assumption.
  rewrite half_pi. autorewrite with nan. reflexivity.
Qed.

(** Both results are [nan] when [Q] is a number outside [-1, 1]. *)
Lemma calcOrbitalInc_Q_outside (Rs Rp a P T RpE TE : float64) (q : R) :
  Inc.Q Rs Rp a P T = Num q → 1 < Rabs q →
  calcOrbitalInc Rs Rp a P T RpE TE = (NaN, NaN).
Proof.
  intros HQ Hq. unfold calcOrbitalInc.
  rewrite HQ, half_pi, farccos_outside by assumption.
  cbn [fsqr fmul fneg fsub fadd].
  assert (1 < q * q).
  { revert Hq. unfold Rabs. destruct (Rcase_abs q); intros; nra. }
  rewrite fsqrt_neg by lra. autorewrite with nan. reflexivity.
Qed.

(** At [sqrt(Z) = 0] the angle is [0] and the uncertainty divides by zero. *)
Lemma calcOrbitalInc_sqrtZ_zero (Rs Rp P T RpE TE : float64) (a : R) :
  a ≠ 0 → fsqrt (Inc.Z Rs Rp (Num a) P T) = Num 0 →
  Inc.Q Rs Rp (Num a) P T = Num 0
  ∧ fst (calcOrbitalInc Rs Rp (Num a) P T RpE TE) = Num 0
  ∧ is_finite (snd (calcOrbitalInc Rs Rp (Num a) P T RpE TE)) = false.
Proof.
  intros Ha HZ.
  assert (HQ : Inc.Q Rs Rp (Num a) P T = Num 0).
  { unfold Inc.Q. rewrite HZ, fdiv_num by assumption.
    f_equal. unfold Rdiv. ring. }
  split; [assumption | split].
  - rewrite (calcOrbitalInc_angle _ _ _ _ _ _ _ 0 HQ) by lra.
    rewrite acos_0. f_equal. ring.
  - unfold calcOrbitalInc. cbn [snd]. rewrite HQ. unfold Inc.Qerr.
    rewrite HZ. cbn [fsqr fmul fneg fsub fadd].
    replace (2 * a * 0) with 0 by ring.
    replace (1 + - (0 * 0)) with 1 by ring.
    rewrite fsqrt_nonneg, sqrt_1 by lra.
    apply fdiv_not_finite_l, fdiv_zero_not_finite.
Qed.

(** At [Q = 1] the uncertainty divides by [sqrt(1 - Q**2) = 0]. *)
Lemma calcOrbitalInc_Q_one (Rs Rp a P T RpE TE : float64) :
  Inc.Q Rs Rp a P T = Num 1 →
  is_finite (snd (calcOrbitalInc Rs Rp a P T RpE TE)) = false.
Proof.
  intros HQ. unfold calcOrbitalInc. cbn [snd]. rewrite HQ.
  cbn [fsqr fmul fneg fsub fadd].
  replace (1 + - (1 * 1)) with 0 by ring.
  rewrite fsqrt_nonneg, sqrt_0 by lra.
  apply fdiv_zero_not_finite.
Qed.

(** Two geometries: a transit of duration zero, and one that lasts half of
    a period of two time units. *)
Lemma Formula_Z_no_transit (Rs Rp a P : R) :
  Formula.Z Rs Rp a P 0 = (Rs + Rp)².
Proof.
  unfold Formula.Z, Formula.X, Formula.Y, Rsqr.
  replace (PI * 0 / P) with 0 by (unfold Rdiv; ring).
  rewrite sin_0. ring.
Qed.

Lemma Formula_Z_half_period (Rs Rp a : R) :
  Formula.Z Rs Rp a 2 1 = (Rs + Rp)² - a².
Proof.
  unfold Formula.Z, Formula.X, Formula.Y, Rsqr.
  replace (PI * 1 / 2) with (PI / 2) by (unfold Rdiv; ring).
  rewrite sin_PI2. ring.
Qed.

Lemma calcOrbitalInc_Z_negative (Rs Rp a P T RpE TE : float64) (z : R) :
  Inc.Z Rs Rp a P T = Num z → z < 0 →
  calcOrbitalInc Rs Rp a P T RpE TE = (NaN, NaN).
Proof.
  intros HZ Hz. apply calcOrbitalInc_Q_not_finite.
  unfold Inc.Q. now rewrite HZ, fsqrt_neg.
Qed.

Lemma calcOrbitalInc_a_zero (Rs Rp P T RpE TE : float64) :
  calcOrbitalInc Rs Rp (Num 0) P T RpE TE = (NaN, NaN).
Proof.
  apply calcOrbitalInc_Q_not_finite. unfold Inc.Q.
  apply fdiv_zero_not_finite.
Qed.

(** C3, as the specification states it, fails: [calcOrbitalInc] checks
    nothing and raises nothing.  With [Z = -3] it returns [nan] for both
    results, and so it does with [a = 0]. *)
Lemma calcOrbitalInc_domain_error_counterexample :
  Inc.Z (Num 1) (Num 0) (Num 2) (Num 2) (Num 1) = Num (-3)
  ∧ calcOrbitalInc (Num 1) (Num 0) (Num 2) (Num 2) (Num 1) (Num 0) (Num 0)
    = (NaN, NaN)
  ∧ calcOrbitalInc (Num 1) (Num 0) (Num 0) (Num 1) (Num 0) (Num 0) (Num 0)
    = (NaN, NaN).
Proof.
  assert (HZ : Inc.Z (Num 1) (Num 0) (Num 2) (Num 2) (Num 1) = Num (-3)).
  { rewrite Z_num by lra. f_equal. rewrite Formula_Z_half_period.
    unfold Rsqr. ring. }
  split; [exact HZ | split].
  - apply (calcOrbitalInc_Z_negative _ _ _ _ _ _ _ (-3) HZ). lra.
  - apply calcOrbitalInc_a_zero.
Qed.

(** C3, amended: [calcOrbitalInc] signals nothing outside its domain.  When
    [Z] is negative, when [a = 0], and when [|Q| > 1], both results are
    [nan]; when [sqrt(Z) = 0] (and [a] is not [0]) the angle is [0] and the
    uncertainty is infinite or [nan]. *)
Theorem calcOrbitalInc_outside_domain (Rs Rp a P T RpE TE : float64) :
  let r := calcOrbitalInc Rs Rp a P T RpE TE in
  (∀ z : R, Inc.Z Rs Rp a P T = Num z → z < 0 → r = (NaN, NaN))
  ∧ (a = Num 0 → r = (NaN, NaN))
  ∧ (∀ q : R, Inc.Q Rs Rp a P T = Num q → 1 < Rabs q → r = (NaN, NaN))
  ∧ (∀ ar : R, a = Num ar → ar ≠ 0 → fsqrt (Inc.Z Rs Rp a P T) = Num 0 →
       fst r = Num 0 ∧ is_finite (snd r) = false).
Proof.
  intros r. subst r. repeat split.
  - intros z. apply calcOrbitalInc_Z_negative.
  - intros ->. apply calcOrbitalInc_a_zero.
  - intros q. apply calcOrbitalInc_Q_outside.
  - subst a. now apply calcOrbitalInc_sqrtZ_zero.
  - subst a. now apply calcOrbitalInc_sqrtZ_zero.
Qed.

Lemma calcOrbitalInc_outside_domain_witness :
  calcOrbitalInc (Num 1) (Num 0) (Num 0) (Num 2) (Num 1) (Num 0) (Num 0)
  = (NaN, NaN).
Proof.
  apply (calcOrbitalInc_outside_domain
           (Num 1) (Num 0) (Num 0) (Num 2) (Num 1) (Num 0) (Num 0)).
  reflexivity.
Defined.

(** C4, as the specification states it, fails: the first result is
    [pi/2 - arccos(Q)], not [arccos(Q)].  With [Rstar + Rplanet = a] and a
    duration of zero, [Z = a²] and [Q = 1]: the angle returned is [pi/2]
    while [arccos(Q) = 0], and the second result is not a number. *)
Lemma calcOrbitalInc_arccos_counterexample :
  let r :=
    calcOrbitalInc (Num 1) (Num 0) (Num 1) (Num 1) (Num 0) (Num 0) (Num 0) in
  Inc.Q (Num 1) (Num 0) (Num 1) (Num 1) (Num 0) = Num 1
  ∧ farccos (Num 1) = Num 0
  ∧ fst r = Num (PI / 2)
  ∧ fst r ≠ farccos (Num 1)
  ∧ is_finite (snd r) = false.
Proof.
  assert (HQ : Inc.Q (Num 1) (Num 0) (Num 1) (Num 1) (Num 0) = Num 1).
  { rewrite Q_num; unfold Formula.Q; rewrite ?Formula_Z_no_transit;
      unfold Rsqr; try lra.
    f_equal. replace ((1 + 0) * (1 + 0)) with 1 by ring.
    rewrite sqrt_1. field. }
  assert (Hacos : farccos (Num 1) = Num 0).
  { rewrite farccos_num by lra. now rewrite acos_1. }
  assert (Hfst : fst (calcOrbitalInc (Num 1) (Num 0) (Num 1) (Num 1) (Num 0)
                        (Num 0) (Num 0)) = Num (PI / 2)).
  { rewrite (calcOrbitalInc_angle _ _ _ _ _ _ _ 1 HQ) by lra.
    rewrite acos_1. f_equal. ring. }
  cbv zeta. repeat split; try assumption.
  - rewrite Hfst, Hacos. intros [= H]. pose proof PI_RGT_0. lra.
  - now apply calcOrbitalInc_Q_one.
Qed.

(** C4, amended: for finite inputs with [P] not [0], [a > 0] and
    [0 <= Z <= a²], the first result is [pi/2 - arccos(Q)] with
    [Q = sqrt(Z)/a]; for [0 < Z < a²] the second result is
    [Qerr / sqrt(1 - Q²)], and at [Z = 0] and at [Z = a²], where that
    formula divides by zero, it is infinite or [nan]. *)
Theorem calcOrbitalInc_valid (Rs Rp a P T RpE TE : R) :
  P ≠ 0 → 0 < a → 0 <= Formula.Z Rs Rp a P T <= a² →
  let Q := Formula.Q Rs Rp a P T in
  let r :=
    calcOrbitalInc (Num Rs) (Num Rp) (Num a) (Num P) (Num T) (Num RpE) (Num TE)
  in
  fst r = Num (PI / 2 - acos Q)
  ∧ (0 < Formula.Z Rs Rp a P T < a² →
     snd r = Num (Formula.Qerr Rs Rp a P T RpE TE / sqrt (1 - Q²)))
  ∧ (Formula.Z Rs Rp a P T = 0 ∨ Formula.Z Rs Rp a P T = a² →
     is_finite (snd r) = false).
Proof.
  intros HP Ha HZ Q r. subst Q r.
  pose proof (Q_range Rs Rp a P T Ha HZ) as HQr.
  assert (HQ : Inc.Q (Num Rs) (Num Rp) (Num a) (Num P) (Num T)
               = Num (Formula.Q Rs Rp a P T)) by (apply Q_num; lra).
  split; [| split].
  - apply calcOrbitalInc_angle; [assumption | lra].
  - intros HZs. pose proof (Q_range_strict Rs Rp a P T Ha HZs).
    apply calcOrbitalInc_err; [assumption | lra |].
    apply Qerr_num; lra.
  - intros [H0 | H1].
    + apply calcOrbitalInc_sqrtZ_zero; [lra |].
      rewrite Z_num, H0, fsqrt_nonneg, sqrt_0 by lra. reflexivity.
    + apply calcOrbitalInc_Q_one. rewrite HQ. f_equal.
      unfold Formula.Q. rewrite H1, sqrt_Rsqr by lra. field. lra.
Qed.

Lemma calcOrbitalInc_valid_witness :
  (1 ≠ 0 ∧ 0 < 2 ∧ 0 <= Formula.Z 1 0 2 1 0 <= 2²)
  ∧ (let Q := Formula.Q 1 0 2 1 0 in
     let r :=
       calcOrbitalInc (Num 1) (Num 0) (Num 2) (Num 1) (Num 0) (Num 0) (Num 0)
     in
     fst r = Num (PI / 2 - acos Q)
     ∧ (0 < Formula.Z 1 0 2 1 0 < 2² →
        snd r = Num (Formula.Qerr 1 0 2 1 0 0 0 / sqrt (1 - Q²)))
     ∧ (Formula.Z 1 0 2 1 0 = 0 ∨ Formula.Z 1 0 2 1 0 = 2² →
        is_finite (snd r) = false)).
Proof.
  assert (H : 0 <= Formula.Z 1 0 2 1 0 <= 2²)
    by (rewrite Formula_Z_no_transit; unfold Rsqr; lra).
  split; [repeat split; lra |].
  apply (calcOrbitalInc_valid 1 0 2 1 0 0 0); [lra | lra | exact H].
Defined.

(** C5, as the specification states it, fails: at [Z = 0] the angle that
    [calcOrbitalInc] returns is [0], not 90 degrees ([pi/2]). *)
Lemma calcOrbitalInc_edge_on_counterexample :
  let r :=
    calcOrbitalInc (Num 1) (Num 0) (Num 1) (Num 2) (Num 1) (Num 0) (Num 0) in
  Inc.Z (Num 1) (Num 0) (Num 1) (Num 2) (Num 1) = Num 0
  ∧ fst r = Num 0
  ∧ fst r ≠ Num (PI / 2).
Proof.
  assert (HZ : Inc.Z (Num 1) (Num 0) (Num 1) (Num 2) (Num 1) = Num 0).
  { rewrite Z_num by lra. f_equal. rewrite Formula_Z_half_period.
    unfold Rsqr. ring. }
  assert (Hs : fsqrt (Inc.Z (Num 1) (Num 0) (Num 1) (Num 2) (Num 1)) = Num 0).
  { rewrite HZ, fsqrt_nonneg, sqrt_0 by lra. reflexivity. }
  destruct (calcOrbitalInc_sqrtZ_zero (Num 1) (Num 0) (Num 2) (Num 1)
              (Num 0) (Num 0) 1 ltac:(lra) Hs) as (_ & Hfst & _).
  cbv zeta. split; [exact HZ | split; [exact Hfst |]].
  rewrite Hfst. intros [= H]. pose proof PI_RGT_0. lra.
Qed.

(** C5, amended: for finite inputs with [P] not [0] and [a > 0], when [Z] is
    exactly [0] then [Q = 0], [arccos(Q)] is 90 degrees and the angle
    returned, [pi/2 - arccos(Q)], is [0]; the call returns (nothing is
    raised), with an uncertainty that is infinite or [nan]. *)
Theorem calcOrbitalInc_edge_on (Rs Rp a P T RpE TE : R) :
  P ≠ 0 → 0 < a → Formula.Z Rs Rp a P T = 0 →
  let r :=
    calcOrbitalInc (Num Rs) (Num Rp) (Num a) (Num P) (Num T) (Num RpE) (Num TE)
  in
  Inc.Q (Num Rs) (Num Rp) (Num a) (Num P) (Num T) = Num 0
  ∧ farccos (Inc.Q (Num Rs) (Num Rp) (Num a) (Num P) (Num T)) = Num (PI / 2)
  ∧ fst r = Num 0
  ∧ is_finite (snd r) = false.
Proof.
  intros HP Ha HZ r. subst r.
  assert (Hs : fsqrt (Inc.Z (Num Rs) (Num Rp) (Num a) (Num P) (Num T)) = Num 0).
  { rewrite Z_num, HZ, fsqrt_nonneg, sqrt_0 by lra. reflexivity. }
  destruct (calcOrbitalInc_sqrtZ_zero (Num Rs) (Num Rp) (Num P) (Num T)
              (Num RpE) (Num TE) a ltac:(lra) Hs) as (HQ & Hfst & Hsnd).
  repeat split; try assumption.
  rewrite HQ, farccos_num by lra. now rewrite acos_0.
Qed.

Lemma calcOrbitalInc_edge_on_witness :
  (2 ≠ 0 ∧ 0 < 1 ∧ Formula.Z 1 0 1 2 1 = 0)
  ∧ (let r :=
       calcOrbitalInc (Num 1) (Num 0) (Num 1) (Num 2) (Num 1) (Num 0) (Num 0)
     in
     Inc.Q (Num 1) (Num 0) (Num 1) (Num 2) (Num 1) = Num 0
     ∧ farccos (Inc.Q (Num 1) (Num 0) (Num 1) (Num 2) (Num 1)) = Num (PI / 2)
     ∧ fst r = Num 0
     ∧ is_finite (snd r) = false).
Proof.
  assert (H : Formula.Z 1 0 1 2 1 = 0)
    by (rewrite Formula_Z_half_period; unfold Rsqr; ring).
  split; [repeat split; (lra || exact H) |].
  apply (calcOrbitalInc_edge_on 1 0 1 2 1 0 0); [lra | lra | exact H].
Defined.

(** C10: when [a > 0] and [Q = sqrt(Z)/a] is a number in [0, 1], the angle
    [calcOrbitalInc] returns is a number in [0, pi/2]. *)
Theorem calcOrbitalInc_angle_range
  (Rs Rp a P T RpE TE : float64) (ar q : R) :
  a = Num ar → 0 < ar →
  Inc.Q Rs Rp a P T = Num q → 0 <= q <= 1 →
  ∃ alpha : R,
    fst (calcOrbitalInc Rs Rp a P T RpE TE) = Num alpha
    ∧ 0 <= alpha <= PI / 2.
Proof.
  intros _ _ HQ Hq. exists (PI / 2 - acos q). split.
  - apply calcOrbitalInc_angle; [assumption | lra].
  - pose proof (acos_quarter_turn q Hq). lra.
Qed.

Lemma calcOrbitalInc_angle_range_witness :
  ∃ alpha : R,
    fst (calcOrbitalInc (Num 1) (Num 0) (Num 2) (Num 1) (Num 0) (Num 0) (Num 0))
    = Num alpha
    ∧ 0 <= alpha <= PI / 2.
Proof.
  assert (HZ : 0 <= Formula.Z 1 0 2 1 0 <= 2²)
    by (rewrite Formula_Z_no_transit; unfold Rsqr; lra).
  apply (calcOrbitalInc_angle_range
           (Num 1) (Num 0) (Num 2) (Num 1) (Num 0) (Num 0) (Num 0)
           2 (Formula.Q 1 0 2 1 0)).
  - reflexivity.
  - lra.
  - apply Q_num; lra.
  - apply Q_range; [lra | exact HZ].
Defined.

(** ** Running a computation on a dictionary *)

Lemma bind_assoc {A B C} (m : py A) (f : A → py B) (g : B → py C)
  (d : gmap string float64) :
  bind (bind m f) g d = bind m (fun x => bind (f x) g) d.
Proof. unfold bind. destruct (m d) as [[x | e] d']; reflexivity. Qed.

Lemma bind_ret {A B} (x : A) (f : A → py B) (d : gmap string float64) :
  bind (ret x) f d = f x d.
Proof. reflexivity. Qed.

Lemma bind_getitem_Some {B} (k : string) (v : float64) (f : float64 → py B)
  (d : gmap string float64) :
  d !! k = Some v → bind (getitem k) f d = f v d.
Proof. intros H. unfold bind, getitem. now rewrite H. Qed.

Lemma bind_getitem_None {B} (k : string) (f : float64 → py B)
  (d : gmap string float64) :
  d !! k = None → bind (getitem k) f d = (Raise (KeyError k), d).
Proof. intros H. unfold bind, getitem. now rewrite H. Qed.

Lemma bind_setitem {B} (k : string) (v : float64) (f : unit → py B)
  (d : gmap string float64) :
  bind (setitem k v) f d = f tt (<[k := v]> d).
Proof. reflexivity. Qed.

Lemma bind_pair {A B} (c : float64 * float64) (f : float64 → float64 → py A)
  (g : A → py B) (d : gmap string float64) :
  bind (let '(x, y) := c in f x y) g d = bind (f (fst c) (snd c)) g d.
Proof. now destruct c. Qed.

(** A lookup in a dictionary built by assignments to literal keys. *)
Ltac lookup_tac :=
  repeat (rewrite lookup_insert_ne by discriminate);
  first [apply lookup_insert_eq | eassumption | apply lookup_empty].

(** One step of a computation whose reads all succeed. *)
Ltac py_step :=
  first
    [ rewrite bind_assoc
    | rewrite bind_setitem
    | rewrite bind_ret
    | rewrite bind_pair
    | erewrite bind_getitem_Some by lookup_tac ].

Ltac unfold_stmts :=
  unfold getAllParms, radius_and_orbit, report,
    stmt_Rplanet, stmt_Rp2Rs, stmt_Rp2RsErr, stmt_a, stmt_v, stmt_i.

(** *** What each computation may modify *)

Lemma modifies_only_ret {A} (keys : list string) (x : A) :
  modifies_only keys (ret x).
Proof. intros d k _. reflexivity. Qed.

Lemma modifies_only_getitem (keys : list string) (key : string) :
  modifies_only keys (getitem key).
Proof. intros d k _. unfold getitem. now destruct (d !! key). Qed.

Lemma modifies_only_setitem (keys : list string) (key : string) (v : float64) :
  key ∈ keys → modifies_only keys (setitem key v).
Proof.
  intros Hin d k Hk. unfold setitem. cbn [snd].
  apply lookup_insert_ne. intros ->. contradiction.
Qed.

Lemma modifies_only_bind {A B} (keys : list string) (m : py A) (f : A → py B) :
  modifies_only keys m → (∀ x, modifies_only keys (f x)) →
  modifies_only keys (bind m f).
Proof.
  intros Hm Hf d k Hk. unfold bind. specialize (Hm d k Hk).
  destruct (m d) as [[x | e] d']; cbn [snd] in *.
  - now rewrite (Hf x d' k Hk).
  - assumption.
Qed.

Lemma modifies_only_pair {A} (keys : list string) (c : float64 * float64)
  (f : float64 → float64 → py A) :
  (∀ x y, modifies_only keys (f x y)) →
  modifies_only keys (let '(x, y) := c in f x y).
Proof. intros H. destruct c. apply H. Qed.

Lemma output_key_cases (key : string) :
  key = "Rplanet"%string ∨ key = "RplanetErr"%string ∨ key = "Rp2Rs"%string
  ∨ key = "Rp2RsErr"%string ∨ key = "a"%string ∨ key = "v"%string
  ∨ key = "i"%string ∨ key = "iErr"%string →
  key ∈ output_keys.
Proof.
  unfold output_keys, early_keys. cbn [app]. rewrite !elem_of_cons.
  tauto.
Qed.

Ltac modifies_tac :=
  repeat first
    [ apply modifies_only_ret
    | apply modifies_only_getitem
    | apply modifies_only_setitem; apply output_key_cases; tauto
    | apply modifies_only_pair; intros
    | apply modifies_only_bind; [| intros] ].

Lemma getAllParms_modifies_only (G : R) (silent : bool) :
  modifies_only output_keys (getAllParms G silent).
Proof.
  unfold_stmts. destruct silent; cbn [negb]; modifies_tac.
Qed.

Lemma input_not_output (k : string) : k ∈ input_keys → k ∉ output_keys.
Proof.
  unfold input_keys, output_keys, early_keys. cbn [app].
  intros H. rewrite !elem_of_cons, elem_of_nil in H.
  rewrite !not_elem_of_cons.
  repeat (destruct H as [-> | H];
          [repeat split; try discriminate; apply not_elem_of_nil |]).
  contradiction.
Qed.

(** *** The runs of getAllParms *)

Section Runs.

Variable G : R.
Variable silent : bool.
Variable d : gmap string float64.

Lemma radius_and_orbit_populated (deltaF Rstar deltaFErr Mstar P : float64) :
  d !! "deltaF" = Some deltaF → d !! "Rstar" = Some Rstar →
  d !! "deltaFErr" = Some deltaFErr →
  d !! "Mstar" = Some Mstar → d !! "P" = Some P →
  radius_and_orbit G d
  = (Return tt, populated_early G d deltaF Rstar deltaFErr Mstar P).
Proof.
  intros. unfold_stmts. repeat py_step. reflexivity.
Qed.

Lemma getAllParms_populated
  (deltaF Rstar deltaFErr Mstar P Tdur TdurErr : float64) :
  d !! "deltaF" = Some deltaF → d !! "Rstar" = Some Rstar →
  d !! "deltaFErr" = Some deltaFErr →
  d !! "Mstar" = Some Mstar → d !! "P" = Some P →
  d !! "Tdur" = Some Tdur → d !! "TdurErr" = Some TdurErr →
  getAllParms G silent d
  = (Return tt, populated G d deltaF Rstar deltaFErr Mstar P Tdur TdurErr).
Proof.
  intros. unfold_stmts. repeat py_step.
  destruct silent; cbn [negb]; repeat py_step; reflexivity.
Qed.

Lemma getAllParms_missing_deltaFErr (deltaF Rstar : float64) :
  d !! "deltaF" = Some deltaF → d !! "Rstar" = Some Rstar →
  d !! "deltaFErr" = None →
  getAllParms G silent d = (Raise (KeyError "deltaFErr"), d).
Proof.
  intros. unfold_stmts. repeat py_step.
  now erewrite bind_getitem_None by lookup_tac.
Qed.

Lemma getAllParms_missing_TdurErr
  (deltaF Rstar deltaFErr Mstar P Tdur : float64) :
  d !! "deltaF" = Some deltaF → d !! "Rstar" = Some Rstar →
  d !! "deltaFErr" = Some deltaFErr →
  d !! "Mstar" = Some Mstar → d !! "P" = Some P →
  d !! "Tdur" = Some Tdur → d !! "TdurErr" = None →
  getAllParms G silent d
  = (Raise (KeyError "TdurErr"),
     populated_early G d deltaF Rstar deltaFErr Mstar P).
Proof.
  intros. unfold_stmts. repeat py_step.
  now erewrite bind_getitem_None by lookup_tac.
Qed.

(** A run up to a read that fails. *)
Ltac raises :=
  unfold_stmts; repeat py_step; erewrite bind_getitem_None by lookup_tac.

(** [getAllParms] returns only if the seven entries it reads are there. *)
Lemma getAllParms_Return_inv :
  fst (getAllParms G silent d) = Return tt →
  ∃ deltaF Rstar deltaFErr Mstar P Tdur TdurErr,
    d !! "deltaF" = Some deltaF ∧ d !! "Rstar" = Some Rstar
    ∧ d !! "deltaFErr" = Some deltaFErr
    ∧ d !! "Mstar" = Some Mstar ∧ d !! "P" = Some P
    ∧ d !! "Tdur" = Some Tdur ∧ d !! "TdurErr" = Some TdurErr.
Proof.
  intros HR.
  destruct (d !! "deltaF") as [deltaF |] eqn:H1;
    [| exfalso; revert HR; raises; discriminate].
  destruct (d !! "Rstar") as [Rstar |] eqn:H2;
    [| exfalso; revert HR; raises; discriminate].
  destruct (d !! "deltaFErr") as [deltaFErr |] eqn:H3;
    [| exfalso; revert HR; raises; discriminate].
  destruct (d !! "Mstar") as [Mstar |] eqn:H4;
    [| exfalso; revert HR; raises; discriminate].
  destruct (d !! "P") as [P |] eqn:H5;
    [| exfalso; revert HR; raises; discriminate].
  destruct (d !! "Tdur") as [Tdur |] eqn:H6;
    [| exfalso; revert HR; raises; discriminate].
  destruct (d !! "TdurErr") as [TdurErr |] eqn:H7;
    [| exfalso; revert HR; raises; discriminate].
  exists deltaF, Rstar, deltaFErr, Mstar, P, Tdur, TdurErr.
  repeat split; reflexivity.
Qed.

(** The radius ratio is in the dictionary from the second statement on,
    whatever becomes of the rest of the run. *)
Lemma getAllParms_Rp2Rs (deltaF Rstar deltaFErr : float64) :
  d !! "deltaF" = Some deltaF → d !! "Rstar" = Some Rstar →
  d !! "deltaFErr" = Some deltaFErr →
  snd (getAllParms G silent d) !! "Rp2Rs"
  = Some (fdiv (fst (calcRplanet deltaF Rstar deltaFErr)) Rstar).
Proof.
  intros H1 H2 H3.
  destruct (d !! "Mstar") as [Mstar |] eqn:H4;
    [| raises; cbn [snd]; lookup_tac].
  destruct (d !! "P") as [P |] eqn:H5;
    [| raises; cbn [snd]; lookup_tac].
  destruct (d !! "Tdur") as [Tdur |] eqn:H6;
    [| raises; cbn [snd]; lookup_tac].
  destruct (d !! "TdurErr") as [TdurErr |] eqn:H7;
    [| raises; cbn [snd]; lookup_tac].
  erewrite getAllParms_populated by eassumption.
  cbn [snd]. unfold populated, populated_early. lookup_tac.
Qed.

End Runs.

Lemma populated_again (G : R) (d : gmap string float64)
  (deltaF Rstar deltaFErr Mstar P Tdur TdurErr : float64) :
  let d' := populated G d deltaF Rstar deltaFErr Mstar P Tdur TdurErr in
  populated G d' deltaF Rstar deltaFErr Mstar P Tdur TdurErr = d'.
Proof.
  intros d'. unfold populated at 1, populated_early at 1.
  repeat (rewrite insert_id
            by (unfold d', populated, populated_early; lookup_tac)).
  reflexivity.
Qed.

Lemma early_not_inclination (k : string) :
  k ∈ early_keys → k ≠ "i"%string ∧ k ≠ "iErr"%string.
Proof.
  unfold early_keys. rewrite !elem_of_cons, elem_of_nil. intros H.
  repeat (destruct H as [-> | H]; [split; discriminate |]).
  contradiction.
Qed.

Lemma Rp2Rs_value (dF Rs : R) (e : float64) :
  0 <= dF → 0 < Rs →
  fdiv (fst (calcRplanet (Num dF) (Num Rs) e)) (Num Rs) = Num (sqrt dF).
Proof.
  intros HdF HRs. rewrite calcRplanet_Rplanet by assumption.
  rewrite fdiv_num by lra. f_equal. field. lra.
Qed.

Lemma object230_knowns_lookups :
  object230_knowns !! "deltaF" = Some (Num (31 / 1000))
  ∧ object230_knowns !! "Rstar" = Some (Num (1591 / 1000))
  ∧ object230_knowns !! "Mstar" = Some (Num (145 / 100))
  ∧ object230_knowns !! "P" = Some (Num (324357 / 100))
  ∧ object230_knowns !! "Tdur" = Some (Num (1725 / 1000))
  ∧ object230_knowns !! "deltaFErr" = None
  ∧ object230_knowns !! "TdurErr" = None.
Proof. unfold object230_knowns. repeat split; lookup_tac. Qed.

Lemma object230_lookups :
  object230 !! "deltaF" = Some (Num (31 / 1000))
  ∧ object230 !! "Rstar" = Some (Num (1591 / 1000))
  ∧ object230 !! "deltaFErr" = Some (Num (2 / 1000))
  ∧ object230 !! "Mstar" = Some (Num (145 / 100))
  ∧ object230 !! "P" = Some (Num (324357 / 100))
  ∧ object230 !! "Tdur" = Some (Num (1725 / 1000))
  ∧ object230 !! "TdurErr" = Some (Num (1 / 10)).
Proof. unfold object230, object230_knowns. repeat split; lookup_tac. Qed.

Lemma object230_returns (G : R) (silent : bool) :
  fst (getAllParms G silent object230) = Return tt.
Proof.
  destruct object230_lookups as (H1 & H2 & H3 & H4 & H5 & H6 & H7).
  now rewrite (getAllParms_populated G silent object230 _ _ _ _ _ _ _
                 H1 H2 H3 H4 H5 H6 H7).
Qed.

(** C1: the code does not do what the claim says.  Given the dictionary of
    object 230 with the five entries that the docstring lists and no
    uncertainty, [getAllParms] raises [KeyError] at ["deltaFErr"] and leaves
    the dictionary as it was; with [deltaFErr] given and [TdurErr] left out
    it raises [KeyError] at ["TdurErr"]; with both given as [0] it returns. *)
Theorem getAllParms_without_uncertainties (G : R) (silent : bool) :
  getAllParms G silent object230_knowns
  = (Raise (KeyError "deltaFErr"), object230_knowns)
  ∧ fst (getAllParms G silent (<["deltaFErr" := Num 0]> object230_knowns))
    = Raise (KeyError "TdurErr")
  ∧ fst (getAllParms G silent
           (<["TdurErr" := Num 0]> (<["deltaFErr" := Num 0]> object230_knowns)))
    = Return tt.
Proof.
  destruct object230_knowns_lookups as (H1 & H2 & H3 & H4 & H5 & H6 & H7).
  split; [| split].
  - eapply getAllParms_missing_deltaFErr; eassumption.
  - erewrite getAllParms_missing_TdurErr; [reflexivity | lookup_tac ..].
  - erewrite getAllParms_populated; [reflexivity | lookup_tac ..].
Qed.

(** C6: [getAllParms] leaves the seven input entries of the dictionary as
    they were, whether it returns or raises; when it returns, the entries
    [Rplanet], [RplanetErr], [Rp2Rs], [Rp2RsErr], [a] and [v] are the ones
    that were set before the inclination was computed, and a second run on
    the resulting dictionary returns and leaves it as it is. *)
Theorem getAllParms_frame (G : R) (silent : bool) (d : gmap string float64) :
  (∀ k : string,
     k ∈ input_keys → snd (getAllParms G silent d) !! k = d !! k)
  ∧ (fst (getAllParms G silent d) = Return tt →
     let d' := snd (getAllParms G silent d) in
     (∃ d1 : gmap string float64,
        radius_and_orbit G d = (Return tt, d1)
        ∧ ∀ k : string, k ∈ early_keys → d' !! k = d1 !! k)
     ∧ getAllParms G silent d' = (Return tt, d')).
Proof.
  split.
  - intros k Hk. now apply getAllParms_modifies_only, input_not_output.
  - intros HR.
    destruct (getAllParms_Return_inv G silent d HR)
      as (dF & Rs & dFe & M & P & T & Te & H1 & H2 & H3 & H4 & H5 & H6 & H7).
    rewrite (getAllParms_populated G silent d _ _ _ _ _ _ _
               H1 H2 H3 H4 H5 H6 H7).
    cbn [snd]. split.
    + exists (populated_early G d dF Rs dFe M P). split.
      * now apply radius_and_orbit_populated.
      * intros k Hk. destruct (early_not_inclination k Hk) as [Hi HiErr].
        unfold populated. now rewrite !lookup_insert_ne by congruence.
    + erewrite getAllParms_populated;
        [| unfold populated, populated_early; lookup_tac ..].
      f_equal. apply populated_again.
Qed.

Lemma getAllParms_frame_witness :
  let d' := snd (getAllParms 1 false object230) in
  (∃ d1 : gmap string float64,
     radius_and_orbit 1 object230 = (Return tt, d1)
     ∧ ∀ k : string, k ∈ early_keys → d' !! k = d1 !! k)
  ∧ getAllParms 1 false d' = (Return tt, d').
Proof.
  apply (getAllParms_frame 1 false object230).
  apply object230_returns.
Defined.

(** C7: for [deltaF >= 0] and [Rstar > 0], the ratio [Rplanet/Rstar] is
    [sqrt(deltaF)] whatever [Rstar] is, and that is the value [getAllParms]
    leaves in the entry [Rp2Rs]. *)
Theorem Rp2Rs_scale_invariant
  (G : R) (silent : bool) (d : gmap string float64)
  (dF Rs : R) (e : float64) :
  d !! "deltaF" = Some (Num dF) → d !! "Rstar" = Some (Num Rs) →
  d !! "deltaFErr" = Some e →
  0 <= dF → 0 < Rs →
  fdiv (fst (calcRplanet (Num dF) (Num Rs) e)) (Num Rs) = Num (sqrt dF)
  ∧ snd (getAllParms G silent d) !! "Rp2Rs" = Some (Num (sqrt dF)).
Proof.
  intros H1 H2 H3 HdF HRs.
  pose proof (Rp2Rs_value dF Rs e HdF HRs) as Hv.
  split; [exact Hv |].
  rewrite (getAllParms_Rp2Rs G silent d _ _ _ H1 H2 H3). now rewrite Hv.
Qed.

Lemma Rp2Rs_scale_invariant_witness :
  fdiv (fst (calcRplanet (Num (31 / 1000)) (Num (1591 / 1000)) (Num (2 / 1000))))
       (Num (1591 / 1000))
  = Num (sqrt (31 / 1000))
  ∧ snd (getAllParms 1 false object230) !! "Rp2Rs"
    = Some (Num (sqrt (31 / 1000))).
Proof.
  apply (Rp2Rs_scale_invariant 1 false object230);
    [apply object230_lookups .. | lra | lra].
Defined.

(** ** Further properties of the calculators *)

(** The cube root of a positive number, as [x ** (1/3)] computes it. *)
Lemma fcbrt_pos (x : R) :
  0 < x → ∃ r : R, fcbrt (Num x) = Num r ∧ 0 < r ∧ r * r * r = x.
Proof.
  intros Hx. exists (Rpower x (1 / 3)). cbn [fcbrt].
  rewrite (Rsgn_pos x Hx). split; [reflexivity | split].
  - unfold Rpower. apply exp_pos.
  - rewrite <- !Rpower_plus.
    replace (1 / 3 + 1 / 3 + 1 / 3) with 1 by field.
    now apply Rpower_1.
Qed.

Lemma kepler_arg_pos (G M P : R) :
  0 < G * M → P ≠ 0 → 0 < G * M * (P * P) / (4 * (PI * PI)).
Proof.
  intros HGM HP. pose proof four_pi_sqr_pos.
  assert (0 < P * P) by nra.
  apply Rdiv_lt_0_compat; [apply Rmult_lt_0_compat |]; assumption.
Qed.

(** X1: for a period that is not [0], the speed [calcOrbitalSpeed] returns
    times the period is the circumference [2 pi a]. *)
Theorem calcOrbitalSpeed_times_period (a P : R) :
  P ≠ 0 →
  fmul (calcOrbitalSpeed (Num a) (Num P)) (Num P) = Num (2 * PI * a).
Proof.
  intros HP. unfold calcOrbitalSpeed, np_pi. cbn [fmul].
  rewrite fdiv_num by assumption. cbn [fmul]. f_equal. field. assumption.
Qed.

Lemma calcOrbitalSpeed_times_period_witness :
  2 ≠ 0 ∧ fmul (calcOrbitalSpeed (Num 1) (Num 2)) (Num 2) = Num (2 * PI * 1).
Proof.
  split; [lra | apply (calcOrbitalSpeed_times_period 1 2); lra].
Defined.

(** X2: with a period of [0], [calcOrbitalSpeed] raises nothing and returns
    a value that is not a finite number: an infinity for an orbital radius
    that is not [0], [nan] for a radius of [0]. *)
Theorem calcOrbitalSpeed_zero_period (a : float64) :
  is_finite (calcOrbitalSpeed a (Num 0)) = false
  ∧ (∀ r : R, a = Num r → r ≠ 0 →
       is_inf (calcOrbitalSpeed a (Num 0)) = true)
  ∧ (a = Num 0 → calcOrbitalSpeed a (Num 0) = NaN).
Proof.
  unfold calcOrbitalSpeed, np_pi. split; [apply fdiv_zero_not_finite | split].
  - intros r -> Hr. cbn [fmul fdiv]. rewrite Rsgn_zero.
    pose proof PI_RGT_0.
    assert (2 * PI * r ≠ 0) by (apply Rmult_integral_contrapositive_currified; lra).
    sgn_cases (2 * PI * r); [contradiction | reflexivity | reflexivity].
  - intros ->. cbn [fmul fdiv]. rewrite Rsgn_zero.
    replace (2 * PI * 0) with 0 by ring. now rewrite Rsgn_zero.
Qed.

Lemma calcOrbitalSpeed_zero_period_witness :
  is_inf (calcOrbitalSpeed (Num 1) (Num 0)) = true.
Proof.
  apply (calcOrbitalSpeed_zero_period (Num 1) : _ ∧ _ ∧ _) with (r := 1);
    [reflexivity | lra].
Defined.

(** X3: Kepler's third law.  When [G * Mstar] is not negative, the radius
    [a] that [calcOrbitalRad] returns is a non-negative number with
    [a³ = G Mstar P² / (4 pi²)]. *)
Theorem calcOrbitalRad_kepler (G M P : R) :
  0 <= G * M →
  ∃ a : R,
    calcOrbitalRad G (Num M) (Num P) = Num a
    ∧ 0 <= a
    ∧ a * a * a = G * M * (P * P) / (4 * (PI * PI)).
Proof.
  intros HGM. rewrite calcOrbitalRad_num.
  pose proof four_pi_sqr_pos as Hpi.
  assert (Hx : 0 <= G * M * (P * P) / (4 * (PI * PI))).
  { apply Rdiv_increasing with (y := G * M * (P * P) + 1); [assumption |].
    assert (0 <= P * P) by nra. split; [apply Rmult_le_pos; assumption | lra]. }
  destruct (Rle_lt_or_eq_dec _ _ Hx) as [Hpos | Hzero].
  - destruct (fcbrt_pos _ Hpos) as (r & Hr & Hr0 & Hr3).
    exists r. repeat split; [assumption | lra | assumption].
  - exists 0. rewrite <- Hzero. cbn [fcbrt]. rewrite Rsgn_zero.
    repeat split; [lra | ring].
Qed.

Lemma calcOrbitalRad_kepler_witness :
  0 <= 1 * 8
  ∧ ∃ a : R,
      calcOrbitalRad 1 (Num 8) (Num 1) = Num a
      ∧ 0 <= a
      ∧ a * a * a = 1 * 8 * (1 * 1) / (4 * (PI * PI)).
Proof.
  split; [lra | apply (calcOrbitalRad_kepler 1 8 1); lra].
Defined.

(** X4: for a positive [G], a negative stellar mass and a period that is
    not [0], [calcOrbitalRad] raises nothing and returns [nan]. *)
Theorem calcOrbitalRad_negative_mass (G M P : R) :
  0 < G → M < 0 → P ≠ 0 →
  calcOrbitalRad G (Num M) (Num P) = NaN.
Proof.
  intros HG HM HP. rewrite calcOrbitalRad_num. cbn [fcbrt].
  rewrite Rsgn_neg; [reflexivity |].
  assert (H : 0 < G * - M * (P * P) / (4 * (PI * PI))).
  { apply kepler_arg_pos; [| assumption]. apply Rmult_lt_0_compat; lra. }
  replace (G * M * (P * P) / (4 * (PI * PI)))
    with (- (G * - M * (P * P) / (4 * (PI * PI))))
    by (unfold Rdiv; ring).
  lra.
Qed.

Lemma calcOrbitalRad_negative_mass_witness :
  (0 < 1 ∧ -1 < 0 ∧ 1 ≠ 0) ∧ calcOrbitalRad 1 (Num (-1)) (Num 1) = NaN.
Proof.
  split; [repeat split; lra |].
  apply (calcOrbitalRad_negative_mass 1 (-1) 1); lra.
Defined.

(** X5: the two orbit calculators together give the speed of a circular
    orbit: for positive [G], [Mstar] and [P], the radius [a] of
    [calcOrbitalRad] and the speed [v] that [calcOrbitalSpeed] computes from
    it satisfy [v² a = G Mstar]. *)
Theorem circular_orbit_speed (G M P : R) :
  0 < G → 0 < M → 0 < P →
  ∃ a v : R,
    calcOrbitalRad G (Num M) (Num P) = Num a
    ∧ calcOrbitalSpeed (Num a) (Num P) = Num v
    ∧ 0 < a ∧ 0 < v
    ∧ v * v * a = G * M.
Proof.
  intros HG HM HP. pose proof PI_RGT_0 as Hpi.
  assert (HGM : 0 < G * M) by now apply Rmult_lt_0_compat.
  destruct (fcbrt_pos _ (kepler_arg_pos G M P HGM ltac:(lra)))
    as (a & Ha & Ha0 & Ha3).
  exists a, (2 * PI * a / P). rewrite calcOrbitalRad_num.
  split; [exact Ha | split; [| split; [exact Ha0 | split]]].
  - unfold calcOrbitalSpeed, np_pi. cbn [fmul]. apply fdiv_num. lra.
  - apply Rdiv_lt_0_compat; [| assumption].
    apply Rmult_lt_0_compat; lra.
  - replace (2 * PI * a / P * (2 * PI * a / P) * a)
      with (4 * (PI * PI) * (a * a * a) / (P * P)) by (field; lra).
    rewrite Ha3. field. lra.
Qed.

Lemma circular_orbit_speed_witness :
  (0 < 1 ∧ 0 < 1 ∧ 0 < 1)
  ∧ ∃ a v : R,
      calcOrbitalRad 1 (Num 1) (Num 1) = Num a
      ∧ calcOrbitalSpeed (Num a) (Num 1) = Num v
      ∧ 0 < a ∧ 0 < v
      ∧ v * v * a = 1 * 1.
Proof.
  split; [repeat split; lra | apply (circular_orbit_speed 1 1 1); lra].
Defined.

(** X6: the flux relation [deltaF = (Rplanet/Rstar)²].  For a transit depth
    that is not negative and a stellar radius that is not [0], squaring the
    ratio of the radius [calcRplanet] returns to [Rstar] gives [deltaF]
    back. *)
Theorem calcRplanet_flux_relation (dF Rs : R) (e : float64) :
  0 <= dF → Rs ≠ 0 →
  fsqr (fdiv (fst (calcRplanet (Num dF) (Num Rs) e)) (Num Rs)) = Num dF.
Proof.
  intros HdF HRs. rewrite calcRplanet_Rplanet by assumption.
  rewrite fdiv_num by assumption. unfold fsqr. cbn [fmul]. f_equal.
  replace (sqrt dF * Rs / Rs * (sqrt dF * Rs / Rs))
    with (sqrt dF * sqrt dF) by (field; assumption).
  now apply sqrt_sqrt.
Qed.

Lemma calcRplanet_flux_relation_witness :
  (0 <= 31 / 1000 ∧ 2 ≠ 0)
  ∧ fsqr (fdiv (fst (calcRplanet (Num (31 / 1000)) (Num 2) (Num 0))) (Num 2))
    = Num (31 / 1000).
Proof.
  split; [split; lra |].
  apply (calcRplanet_flux_relation (31 / 1000) 2 (Num 0)); lra.
Defined.

(** X7: the chord geometry behind the inclination.  For finite inputs with
    [P] not [0], [a > 0] and [0 <= Z <= a²], the angle [alpha] that
    [calcOrbitalInc] returns satisfies
    [(a sin alpha)² + (a sin(pi Tdur/P))² = (Rstar + Rplanet)²]. *)
Theorem calcOrbitalInc_chord_geometry (Rs Rp a P T RpE TE : R) :
  P ≠ 0 → 0 < a → 0 <= Formula.Z Rs Rp a P T <= a² →
  ∃ alpha : R,
    fst (calcOrbitalInc (Num Rs) (Num Rp) (Num a) (Num P) (Num T)
           (Num RpE) (Num TE)) = Num alpha
    ∧ (a * sin alpha)² + (a * sin (PI * T / P))² = (Rs + Rp)².
Proof.
  intros HP Ha HZ.
  pose proof (Q_range Rs Rp a P T Ha HZ) as HQr.
  exists (PI / 2 - acos (Formula.Q Rs Rp a P T)). split.
  - apply calcOrbitalInc_angle; [apply Q_num; lra | lra].
  - rewrite sin_shift, cos_acos by lra.
    unfold Formula.Q.
    replace (a * (sqrt (Formula.Z Rs Rp a P T) / a))
      with (sqrt (Formula.Z Rs Rp a P T)) by (field; lra).
    rewrite Rsqr_sqrt by lra.
    unfold Formula.Z, Formula.X, Formula.Y. ring.
Qed.

Lemma calcOrbitalInc_chord_geometry_witness :
  (1 ≠ 0 ∧ 0 < 2 ∧ 0 <= Formula.Z 1 0 2 1 0 <= 2²)
  ∧ ∃ alpha : R,
      fst (calcOrbitalInc (Num 1) (Num 0) (Num 2) (Num 1) (Num 0)
             (Num 0) (Num 0)) = Num alpha
      ∧ (2 * sin alpha)² + (2 * sin (PI * 0 / 1))² = (1 + 0)².
Proof.
  assert (H : 0 <= Formula.Z 1 0 2 1 0 <= 2²)
    by (rewrite Formula_Z_no_transit; unfold Rsqr; lra).
  split; [repeat split; lra |].
  apply (calcOrbitalInc_chord_geometry 1 0 2 1 0 0 0); [lra | lra | exact H].
Defined.








(** ** Further properties of getAllParms *)

(** A run up to a read that fails. *)
Ltac py_raise :=
  unfold_stmts;
  repeat first [py_step | erewrite bind_getitem_None by lookup_tac].

(** An entry of a dictionary built by assignments that lies under them. *)
Ltac lookup_under :=
  cbn [snd]; repeat (rewrite lookup_insert_ne by discriminate); reflexivity.

Lemma calcRplanet_negative (dF : R) (Rs e : float64) :
  dF < 0 → calcRplanet (Num dF) Rs e = (NaN, NaN).
Proof.
  intros H. unfold calcRplanet. rewrite fsqrt_neg by assumption.
  now autorewrite with nan.
Qed.

Lemma calcOrbitalInc_nan_radius (Rs a P T RpE TE : float64) :
  calcOrbitalInc Rs NaN a P T RpE TE = (NaN, NaN).
Proof.
  apply calcOrbitalInc_Q_not_finite.
  unfold Inc.Q, Inc.Z, Inc.X. now destruct Rs.
Qed.

(** The four entries of the first three statements are in the dictionary
    whatever becomes of the rest of the run. *)
Lemma getAllParms_radius_entries (G : R) (silent : bool)
  (d : gmap string float64) (deltaF Rstar deltaFErr : float64) :
  d !! "deltaF" = Some deltaF → d !! "Rstar" = Some Rstar →
  d !! "deltaFErr" = Some deltaFErr →
  let d' := snd (getAllParms G silent d) in
  let r := calcRplanet deltaF Rstar deltaFErr in
  d' !! "Rplanet" = Some (fst r)
  ∧ d' !! "RplanetErr" = Some (snd r)
  ∧ d' !! "Rp2Rs" = Some (fdiv (fst r) Rstar)
  ∧ d' !! "Rp2RsErr" = Some (fdiv (snd r) Rstar).
Proof.
  intros H1 H2 H3. cbv zeta.
  destruct (d !! "Mstar") as [Mstar |] eqn:H4;
    [| py_raise; cbn [snd]; repeat split; lookup_tac].
  destruct (d !! "P") as [P |] eqn:H5;
    [| py_raise; cbn [snd]; repeat split; lookup_tac].
  destruct (d !! "Tdur") as [Tdur |] eqn:H6;
    [| py_raise; cbn [snd]; repeat split; lookup_tac].
  destruct (d !! "TdurErr") as [TdurErr |] eqn:H7;
    [| py_raise; cbn [snd]; repeat split; lookup_tac].
  erewrite getAllParms_populated by eassumption.
  cbn [snd]. unfold populated, populated_early. repeat split; lookup_tac.
Qed.

(** X11: when the dictionary lacks one of the seven entries that
    [getAllParms] reads, the call raises [KeyError] for the first one, in
    the order [deltaF], [Rstar], [deltaFErr], [Mstar], [P], [Tdur],
    [TdurErr], that is not there. *)
Theorem getAllParms_first_missing_key
  (G : R) (silent : bool) (d : gmap string float64) (key : string) :
  first_missing d = Some key →
  fst (getAllParms G silent d) = Raise (KeyError key).
Proof.
  unfold first_missing, read_order. cbn [find].
  destruct (d !! "deltaF") as [deltaF |] eqn:H1;
    [| intros [= <-]; now py_raise].
  destruct (d !! "Rstar") as [Rstar |] eqn:H2;
    [| intros [= <-]; now py_raise].
  destruct (d !! "deltaFErr") as [deltaFErr |] eqn:H3;
    [| intros [= <-]; now py_raise].
  destruct (d !! "Mstar") as [Mstar |] eqn:H4;
    [| intros [= <-]; now py_raise].
  destruct (d !! "P") as [P |] eqn:H5;
    [| intros [= <-]; now py_raise].
  destruct (d !! "Tdur") as [Tdur |] eqn:H6;
    [| intros [= <-]; now py_raise].
  destruct (d !! "TdurErr") as [TdurErr |] eqn:H7;
    [| intros [= <-]; now py_raise].
  discriminate.
Qed.

Lemma getAllParms_first_missing_key_witness :
  first_missing object230_knowns = Some "deltaFErr"%string
  ∧ fst (getAllParms 1 false object230_knowns) = Raise (KeyError "deltaFErr").
Proof.
  assert (H : first_missing object230_knowns = Some "deltaFErr"%string).
  { destruct object230_knowns_lookups as (H1 & H2 & H3 & H4 & H5 & H6 & H7).
    unfold first_missing, read_order. cbn [find].
    now rewrite H1, H2, H6. }
  split; [exact H | now apply getAllParms_first_missing_key].
Defined.

(** X12: the flag [silent] changes neither the outcome of [getAllParms] nor
    the dictionary it leaves: the report reads only entries that the
    statements before it have set. *)
Theorem getAllParms_silent_irrelevant (G : R) (d : gmap string float64) :
  getAllParms G true d = getAllParms G false d.
Proof.
  destruct (d !! "deltaF") as [deltaF |] eqn:H1; [| now py_raise].
  destruct (d !! "Rstar") as [Rstar |] eqn:H2; [| now py_raise].
  destruct (d !! "deltaFErr") as [deltaFErr |] eqn:H3; [| now py_raise].
  destruct (d !! "Mstar") as [Mstar |] eqn:H4; [| now py_raise].
  destruct (d !! "P") as [P |] eqn:H5; [| now py_raise].
  destruct (d !! "Tdur") as [Tdur |] eqn:H6; [| now py_raise].
  destruct (d !! "TdurErr") as [TdurErr |] eqn:H7; [| now py_raise].
  now rewrite !(getAllParms_populated G _ d _ _ _ _ _ _ _
                  H1 H2 H3 H4 H5 H6 H7).
Qed.

(** X13: [getAllParms] touches no entry other than the eight it computes:
    under any other key the dictionary holds afterwards what it held
    before (or still nothing), whether the call returns or raises. *)
Theorem getAllParms_other_entries
  (G : R) (silent : bool) (d : gmap string float64) (k : string) :
  k ∉ output_keys → snd (getAllParms G silent d) !! k = d !! k.
Proof. intros Hk. now apply getAllParms_modifies_only. Qed.

Lemma getAllParms_other_entries_witness :
  ("name"%string ∉ output_keys)
  ∧ snd (getAllParms 1 false (<["name" := Num 230]> object230)) !! "name"
    = (<["name" := Num 230]> object230) !! "name".
Proof.
  assert (H : "name"%string ∉ output_keys).
  { unfold output_keys, early_keys. cbn [app]. rewrite !not_elem_of_cons.
    repeat split; try discriminate. apply not_elem_of_nil. }
  split; [exact H | now apply getAllParms_other_entries].
Defined.

(** X14: when [getAllParms] raises, the entries [i] and [iErr] are as they
    were: the inclination is written only by a run that reads all seven
    inputs. *)
Theorem getAllParms_raise_keeps_inclination
  (G : R) (silent : bool) (d : gmap string float64) :
  fst (getAllParms G silent d) ≠ Return tt →
  snd (getAllParms G silent d) !! "i" = d !! "i"
  ∧ snd (getAllParms G silent d) !! "iErr" = d !! "iErr".
Proof.
  intros HR.
  destruct (d !! "deltaF") as [deltaF |] eqn:H1;
    [| py_raise; split; lookup_under].
  destruct (d !! "Rstar") as [Rstar |] eqn:H2;
    [| py_raise; split; lookup_under].
  destruct (d !! "deltaFErr") as [deltaFErr |] eqn:H3;
    [| py_raise; split; lookup_under].
  destruct (d !! "Mstar") as [Mstar |] eqn:H4;
    [| py_raise; split; lookup_under].
  destruct (d !! "P") as [P |] eqn:H5;
    [| py_raise; split; lookup_under].
  destruct (d !! "Tdur") as [Tdur |] eqn:H6;
    [| py_raise; split; lookup_under].
  destruct (d !! "TdurErr") as [TdurErr |] eqn:H7;
    [| py_raise; split; lookup_under].
  exfalso. apply HR.
  now erewrite getAllParms_populated by eassumption.
Qed.

Lemma getAllParms_raise_keeps_inclination_witness :
  fst (getAllParms 1 false object230_knowns) ≠ Return tt
  ∧ snd (getAllParms 1 false object230_knowns) !! "i"
    = object230_knowns !! "i"
  ∧ snd (getAllParms 1 false object230_knowns) !! "iErr"
    = object230_knowns !! "iErr".
Proof.
  assert (H : fst (getAllParms 1 false object230_knowns) ≠ Return tt).
  { destruct object230_knowns_lookups as (H1 & H2 & _ & _ & _ & H6 & _).
    rewrite (getAllParms_missing_deltaFErr 1 false _ _ _ H1 H2 H6).
    discriminate. }
  split; [exact H | now apply getAllParms_raise_keeps_inclination].
Defined.

(** X15: a failing run leaves its partial results behind.  When the five
    entries read by the first five statements are there and [Tdur] or
    [TdurErr] is not, [getAllParms] raises [KeyError] and the dictionary
    has by then the radius, the ratio, their uncertainties, the orbital
    radius and the orbital speed. *)
Theorem getAllParms_partial_update
  (G : R) (silent : bool) (d : gmap string float64)
  (deltaF Rstar deltaFErr Mstar P : float64) :
  d !! "deltaF" = Some deltaF → d !! "Rstar" = Some Rstar →
  d !! "deltaFErr" = Some deltaFErr →
  d !! "Mstar" = Some Mstar → d !! "P" = Some P →
  d !! "Tdur" = None ∨ d !! "TdurErr" = None →
  let d' := snd (getAllParms G silent d) in
  let r := calcRplanet deltaF Rstar deltaFErr in
  (∃ key : string, fst (getAllParms G silent d) = Raise (KeyError key))
  ∧ d' !! "Rplanet" = Some (fst r)
  ∧ d' !! "RplanetErr" = Some (snd r)
  ∧ d' !! "Rp2Rs" = Some (fdiv (fst r) Rstar)
  ∧ d' !! "Rp2RsErr" = Some (fdiv (snd r) Rstar)
  ∧ d' !! "a" = Some (calcOrbitalRad G Mstar P)
  ∧ d' !! "v" = Some (calcOrbitalSpeed (calcOrbitalRad G Mstar P) P).
Proof.
  intros H1 H2 H3 H4 H5 Hmiss. cbv zeta.
  destruct (d !! "Tdur") as [Tdur |] eqn:H6.
  - destruct Hmiss as [Hmiss | H7]; [discriminate |].
    py_raise. cbn [fst snd]. split; [eauto |]. repeat split; lookup_tac.
  - py_raise. cbn [fst snd]. split; [eauto |]. repeat split; lookup_tac.
Qed.

Lemma getAllParms_partial_update_witness :
  let d := <["deltaFErr" := Num 0]> object230_knowns in
  let d' := snd (getAllParms 1 false d) in
  let r := calcRplanet (Num (31 / 1000)) (Num (1591 / 1000)) (Num 0) in
  (∃ key : string, fst (getAllParms 1 false d) = Raise (KeyError key))
  ∧ d' !! "Rplanet" = Some (fst r)
  ∧ d' !! "RplanetErr" = Some (snd r)
  ∧ d' !! "Rp2Rs" = Some (fdiv (fst r) (Num (1591 / 1000)))
  ∧ d' !! "Rp2RsErr" = Some (fdiv (snd r) (Num (1591 / 1000)))
  ∧ d' !! "a" = Some (calcOrbitalRad 1 (Num (145 / 100)) (Num (324357 / 100)))
  ∧ d' !! "v"
    = Some (calcOrbitalSpeed
              (calcOrbitalRad 1 (Num (145 / 100)) (Num (324357 / 100)))
              (Num (324357 / 100))).
Proof.
  apply (getAllParms_partial_update 1 false
           (<["deltaFErr" := Num 0]> object230_knowns));
    [unfold object230_knowns; lookup_tac .. |].
  right. unfold object230_knowns. lookup_tac.
Defined.



(** X17: the uncertainty of the radius ratio that [getAllParms] stores does
    not depend on the stellar radius: for [deltaF > 0], a stellar radius
    that is not [0] and a finite [deltaFErr], the entry [Rp2RsErr] is
    [deltaFErr / (2 sqrt(deltaF))]. *)
Theorem Rp2RsErr_scale_invariant
  (G : R) (silent : bool) (d : gmap string float64) (dF Rs e : R) :
  d !! "deltaF" = Some (Num dF) → d !! "Rstar" = Some (Num Rs) →
  d !! "deltaFErr" = Some (Num e) →
  0 < dF → Rs ≠ 0 →
  snd (getAllParms G silent d) !! "Rp2RsErr" = Some (Num (e / (2 * sqrt dF))).
Proof.
  intros H1 H2 H3 HdF HRs.
  destruct (getAllParms_radius_entries G silent d _ _ _ H1 H2 H3)
    as (_ & _ & _ & ->).
  rewrite calcRplanet_num by assumption. cbn [snd].
  rewrite fdiv_num by assumption. do 2 f_equal.
  pose proof (sqrt_lt_R0 dF HdF). field. split; lra.
Qed.

Lemma Rp2RsErr_scale_invariant_witness :
  (0 < 31 / 1000 ∧ 1591 / 1000 ≠ 0)
  ∧ snd (getAllParms 1 false object230) !! "Rp2RsErr"
    = Some (Num (2 / 1000 / (2 * sqrt (31 / 1000)))).
Proof.
  split; [split; lra |].
  apply (Rp2RsErr_scale_invariant 1 false object230 (31 / 1000) (1591 / 1000));
    [apply object230_lookups .. | lra | lra].
Defined.

(** X18: a negative transit depth does not stop the run.  With all seven
    entries there and [deltaF < 0], [getAllParms] returns; it leaves [nan]
    in [Rplanet], [RplanetErr], [Rp2Rs], [Rp2RsErr], [i] and [iErr], and the
    orbital radius and speed computed from [Mstar] and [P] in [a] and [v]. *)
Theorem getAllParms_negative_depth
  (G : R) (silent : bool) (d : gmap string float64)
  (dF : R) (Rstar deltaFErr Mstar P Tdur TdurErr : float64) :
  d !! "deltaF" = Some (Num dF) → d !! "Rstar" = Some Rstar →
  d !! "deltaFErr" = Some deltaFErr →
  d !! "Mstar" = Some Mstar → d !! "P" = Some P →
  d !! "Tdur" = Some Tdur → d !! "TdurErr" = Some TdurErr →
  dF < 0 →
  let d' := snd (getAllParms G silent d) in
  fst (getAllParms G silent d) = Return tt
  ∧ d' !! "Rplanet" = Some NaN ∧ d' !! "RplanetErr" = Some NaN
  ∧ d' !! "Rp2Rs" = Some NaN ∧ d' !! "Rp2RsErr" = Some NaN
  ∧ d' !! "i" = Some NaN ∧ d' !! "iErr" = Some NaN
  ∧ d' !! "a" = Some (calcOrbitalRad G Mstar P)
  ∧ d' !! "v" = Some (calcOrbitalSpeed (calcOrbitalRad G Mstar P) P).
Proof.
  intros H1 H2 H3 H4 H5 H6 H7 HdF. cbv zeta.
  rewrite (getAllParms_populated G silent d _ _ _ _ _ _ _
             H1 H2 H3 H4 H5 H6 H7).
  cbn [fst snd]. unfold populated, populated_early.
  rewrite (calcRplanet_negative dF Rstar deltaFErr HdF). cbn [fst snd].
  rewrite calcOrbitalInc_nan_radius. cbn [fst snd]. autorewrite with nan.
  split; [reflexivity |]. repeat split; lookup_tac.
Qed.

Lemma getAllParms_negative_depth_witness :
  let d := <["deltaF" := Num (-1 / 100)]> object230 in
  let d' := snd (getAllParms 1 false d) in
  fst (getAllParms 1 false d) = Return tt
  ∧ d' !! "Rplanet" = Some NaN ∧ d' !! "RplanetErr" = Some NaN
  ∧ d' !! "Rp2Rs" = Some NaN ∧ d' !! "Rp2RsErr" = Some NaN
  ∧ d' !! "i" = Some NaN ∧ d' !! "iErr" = Some NaN
  ∧ d' !! "a" = Some (calcOrbitalRad 1 (Num (145 / 100)) (Num (324357 / 100)))
  ∧ d' !! "v"
    = Some (calcOrbitalSpeed
              (calcOrbitalRad 1 (Num (145 / 100)) (Num (324357 / 100)))
              (Num (324357 / 100))).
Proof.
  apply (getAllParms_negative_depth 1 false
           (<["deltaF" := Num (-1 / 100)]> object230) (-1 / 100)
           (Num (1591 / 1000)) (Num (2 / 1000)) (Num (145 / 100))
           (Num (324357 / 100)) (Num (1725 / 1000)) (Num (1 / 10)));
    [unfold object230, object230_knowns; lookup_tac .. | lra].
Defined.
